(** * layman: catalogs of overlays and the API that drives them

  A shallow embedding of [layman/dbbase.py] (class [DbBase] and its two
  exception classes) and of [layman/api.py] (class [LaymanAPI]), followed by
  the properties of the specification that concern them.

  Python objects are mutable; a method is modelled as a function from the
  object (and whatever else it touches) to an outcome and the object after
  the call.  An outcome is a value or a raised exception. *)

From stdpp Require Import base gmap strings list sorting pretty.
From Stdlib Require Import ZArith.

Open Scope Z_scope.
Open Scope string_scope.

(** ** Python preliminaries *)

Module Py.

(** The exception classes that the two modules raise or let through.  All of
    them derive from [Exception]. *)
Inductive exn : Type :=
| NameError (name : string)
| KeyError (key : string)
| IndexError (msg : string)
| ValueError (msg : string)
| IOError (msg : string)
| NotImplementedError (msg : string)
| UnknownOverlayException (msg : string)
| BrokenOverlayCatalog (msg : string)
| ParseError (msg : string)
| Exception (msg : string).

(** The classes named in [except] clauses. *)
Inductive exn_class : Type :=
| ExceptionClass
| UnknownOverlayExceptionClass.

Definition isinstance (e : exn) (c : exn_class) : bool :=
  match c, e with
  | ExceptionClass, _ => true
  | UnknownOverlayExceptionClass, UnknownOverlayException _ => true
  | UnknownOverlayExceptionClass, _ => false
  end.

Definition squote : string := String (Ascii.ascii_of_nat 39) EmptyString.
Definition dquote : string := String (Ascii.ascii_of_nat 34) EmptyString.
Definition nl : string := String (Ascii.ascii_of_nat 10) EmptyString.

(** [str(e)] *)
Definition str (e : exn) : string :=
  match e with
  | NameError n => "global name " ++ squote ++ n ++ squote ++ " is not defined"
  | KeyError k => squote ++ k ++ squote
  | IndexError m | ValueError m | IOError m | NotImplementedError m
  | UnknownOverlayException m | BrokenOverlayCatalog m | ParseError m
  | Exception m => m
  end.

(** The outcome of evaluating an expression or running a statement. *)
Inductive result (A : Type) : Type :=
| Ok (a : A)
| Raise (e : exn).
Global Arguments Ok {A} a.
Global Arguments Raise {A} e.

Definition bind {A B} (c : result A) (k : A → result B) : result B :=
  match c with
  | Ok a => k a
  | Raise e => Raise e
  end.

(** [raise C(args)]: the constructor call is evaluated first, and an
    exception raised while it runs is the one that propagates. *)
Definition raise_new {A} (c : result exn) : result A :=
  match c with
  | Ok e => Raise e
  | Raise e => Raise e
  end.

(** [%d] of an integer. *)
Definition fmt_d (n : Z) : string := pretty n.

(** Iteration order of hashed containers.  Python 2 leaves the order of
    [dict.values()] and of a [set] unspecified; each is some arrangement of
    the elements, and nothing more is known. *)
Class HashOrder : Type := {
  dict_order : list string → list string;
  set_order : list string → list string;
  dict_order_perm : ∀ l, dict_order l ≡ₚ l;
  set_order_perm : ∀ l, set_order l ≡ₚ l
}.

(** [sorted(xs)] on byte strings. *)
Definition sorted (xs : list string) : list string := merge_sort String.le xs.

(** What a caller may pass where a string or a list of strings is
    expected.  Python 2 has two types of strings, [str] and [unicode], and
    neither derives from the other; the names that a catalog hands out are
    of the second (the doctest of [DbBase.read] shows them as [u'wrobel']).
    The items of a list are used for their text only. *)
Inductive arg : Type :=
| Str (s : string)
| Unicode (s : string)
| List (l : list string)
| Int (n : Z)
| None_.

(** [s.lower()] on a byte string: the letters A to Z are the ones that
    change. *)
Definition lower_char (c : Ascii.ascii) : Ascii.ascii :=
  let n := Ascii.nat_of_ascii c in
  if bool_decide (65 ≤ n ∧ n ≤ 90)%nat then Ascii.ascii_of_nat (n + 32) else c.

Fixpoint lower (s : string) : string :=
  match s with
  | EmptyString => EmptyString
  | String c s => String (lower_char c) (lower s)
  end.

(** [sorted(l, key=key)] with byte strings as keys.  The sort is stable: an
    element goes in front of the elements after it whose key is not
    smaller. *)
Fixpoint insert_by {A} (key : A → string) (x : A) (l : list A) : list A :=
  match l with
  | [] => [x]
  | y :: l' => if String.leb (key x) (key y) then x :: l else y :: insert_by key x l'
  end.

Definition sorted_by {A} (key : A → string) (l : list A) : list A :=
  foldr (insert_by key) [] l.

End Py.

Import Py.

Declare Scope py_scope.
Delimit Scope py_scope with py.
Notation "'do' x <- c ; k" := (Py.bind c (λ x, k))
  (at level 10, x name, c at level 100, k at level 200) : py_scope.
Open Scope py_scope.

(** ** layman.overlays.overlay and the XML library *)

Module xml.

(** An element of [xml.etree.ElementTree]. *)
#[warnings="-register-all"]
Inductive Element : Type :=
  mkElement (tag : string) (attrib : list (string * string)) (text : string)
            (children : list Element).

Definition tag (e : Element) : string := let 'mkElement t _ _ _ := e in t.
Definition attrib (e : Element) : list (string * string) :=
  let 'mkElement _ a _ _ := e in a.
Definition text (e : Element) : string := let 'mkElement _ _ x _ := e in x.
Definition children (e : Element) : list Element :=
  let 'mkElement _ _ _ c := e in c.

(** [e.findall(t)] with a bare tag: the direct children with that tag, in
    document order. *)
Definition findall (t : string) (e : Element) : list Element :=
  filter (λ c, tag c = t) (children e).

(** [xml.parsers.expat.ExpatError] *)
Record ExpatError : Type := { lineno : Z; offset : Z }.

(** What [fromstring] raises on text that is not well formed.  It depends on
    the library: ElementTree up to Python 2.6 lets the [ExpatError] of the
    parser through; from Python 2.7 on it raises its own [ParseError], which
    derives from [SyntaxError] and not from [ExpatError], and which is known
    here by its message. *)
Inductive failure : Type :=
| raised_ExpatError (error : ExpatError)
| raised_ParseError (message : string).

(** The parser and the serialiser, which are not part of layman, and
    [layman.utils.indent]; all three are taken as given. *)
Class Lib : Type := {
  fromstring : string → failure + Element;
  tostring : Element → string;
  indent : Element → Element
}.

End xml.

Module overlay.

(** Modelled from the spec: the class [Overlay] of
    [layman/overlays/overlay.py] is missing; section 3 gives a source as a
    type and a uri (the attributes [type] and [src] read by the API). *)
Record Source : Type := { type : string; src : string }.

(** Modelled from the spec: the class [Overlay] is missing; section 3 lists
    its fields, and that [sources] is ordered, primary first. *)
Record Overlay : Type := {
  name : string;
  description : string;
  homepage : string;
  owner_name : string;
  owner_email : string;
  priority : Z;
  quality : string;
  status : string;
  sources : list Source
}.

Global Instance Source_eq_dec : EqDecision Source.
Proof. solve_decision. Defined.
Global Instance Overlay_eq_dec : EqDecision Overlay.
Proof. solve_decision. Defined.

(** Modelled from the spec: [Overlay.__ne__] is missing; two overlays are
    equal when their names, sources and metadata are (section 8). *)
Definition __ne__ (a b : Overlay) : bool := bool_decide (a ≠ b).

(** Modelled from the spec: [Overlay.source_uris] is missing; section 4.2
    has it return the uri of every source, in declared order. *)
Definition source_uris (o : Overlay) : list string := src <$> sources o.

(** The rest of the missing class: the constructor from an XML element
    (which may reject the element), [to_xml], [__str__], and the two
    classification rules, which the specification leaves to a policy. *)
Class Methods : Type := {
  of_xml : xml.Element → result Overlay;
  to_xml : Overlay → xml.Element;
  __str__ : Overlay → string;
  is_official : Overlay → bool;
  is_supported : Overlay → bool
}.

(** One more method of the missing class: [short_list], the one-line summary
    bounded by a width, which [DbBase.list] puts in its result. *)
Class Listing : Type := {
  short_list : Overlay → Z → string
}.

End overlay.

(** ** layman/dbbase.py *)

Module dbbase.

Import xml overlay.

Definition UnknownOverlayMessage (ovl : string) : string :=
  "Overlay " ++ dquote ++ ovl ++ dquote ++ " does not exist.".

(** [UnknownOverlayException.__init__]: the message is computed and dropped,
    then the parent constructor is called on the name [message], which is
    bound nowhere: not in the function, not in the module, not among the
    builtins.  The lookup raises [NameError], so no instance is ever built. *)
Definition UnknownOverlayException___init__ (repo_name : string) : result exn :=
  let _ := UnknownOverlayMessage repo_name in
  Raise (NameError "message").

(** [BrokenOverlayCatalog.__init__] *)
Definition BrokenOverlayCatalog___init__
    (origin : string) (expat_error : ExpatError) (hint : option string) : exn :=
  let hint :=
    match hint with
    | None => EmptyString
    | Some h => nl ++ "Hint: " ++ h
    end in
  BrokenOverlayCatalog
    ("XML parsing failed for " ++ dquote ++ origin ++ dquote
     ++ " (line " ++ fmt_d (lineno expat_error)
     ++ ", column " ++ fmt_d (offset expat_error + 1) ++ ")" ++ hint).

(** The class of a catalog object: its name, and its [_broken_catalog_hint]
    when it overrides the one of [DbBase].  The subclasses live in
    [layman/db.py] and are known here by this record only. *)
Record class : Type := {
  __name__ : string;
  hint_override : option (result (option string))
}.

Definition DbBase_class : class :=
  {| __name__ := "DbBase"; hint_override := None |}.

(** The files on disk: path to content. *)
Abbreviation files := (gmap string string).

(** A [DbBase] object.  [config], [quiet] and [ignore] are only handed on to
    the [Overlay] constructor, which is a parameter here; the calls on the
    message sink [self.output] have no part in the control flow of this
    class and are left out. *)
Record DbBase : Type := {
  __class__ : class;
  paths : list string;
  overlays : gmap string Overlay
}.

Definition set_overlays (m : gmap string Overlay) (self : DbBase) : DbBase :=
  {| __class__ := __class__ self; paths := paths self; overlays := m |}.

Section methods.
Context `{!HashOrder} `{!xml.Lib} `{!overlay.Methods}.

(** [d.keys()] and [d.values()], which go through the dictionary in the
    same order. *)
Definition keys {A} (d : gmap string A) : list string :=
  dict_order (map_to_list d).*1.

Definition values {A} (d : gmap string A) : list A :=
  omap (λ k, d !! k) (keys d).

(** [set(l)], as the list it yields when iterated. *)
Definition set_of (l : list string) : list string :=
  set_order (remove_dups l).

(** [d[key]] *)
Definition getitem {A} (d : gmap string A) (key : string) : result A :=
  match d !! key with
  | Some v => Ok v
  | None => Raise (KeyError key)
  end.

Fixpoint __eq___loop (ks : list string) (self other : DbBase) : result bool :=
  match ks with
  | [] => Ok true
  | key :: ks =>
      do a <- getitem (overlays self) key;
      do b <- getitem (overlays other) key;
      if overlay.__ne__ a b then Ok false else __eq___loop ks self other
  end.

(** [DbBase.__eq__] *)
Definition __eq__ (self other : DbBase) : result bool :=
  __eq___loop (set_of (keys (overlays self) ++ keys (overlays other))) self other.

(** [DbBase.__ne__] *)
Definition __ne__ (self other : DbBase) : result bool :=
  do b <- __eq__ self other; Ok (negb b).

(** [DbBase._broken_catalog_hint], or the override of the subclass. *)
Definition _broken_catalog_hint (self : DbBase) : result (option string) :=
  match hint_override (__class__ self) with
  | Some hint => hint
  | None =>
      Raise (NotImplementedError
               ("Method " ++ dquote ++ __name__ (__class__ self)
                ++ "._broken_catalog_hint" ++ dquote ++ " not implemented"))
  end.

(** The loop of [read]: one [Overlay] per element, stored under its name.
    When the constructor raises, the entries stored so far stay. *)
Fixpoint read_loop (elems : list Element) (self : DbBase) : result () * DbBase :=
  match elems with
  | [] => (Ok (), self)
  | e :: elems =>
      match of_xml e with
      | Raise err => (Raise err, self)
      | Ok ovl =>
          read_loop elems (set_overlays (<[name ovl := ovl]> (overlays self)) self)
      end
  end.

(** The overlay built from an element, when the constructor accepts it. *)
Definition accepted (e : Element) : option Overlay :=
  match of_xml e with
  | Ok o => Some o
  | Raise _ => None
  end.

(** A mapping after each overlay of a list has been stored under its name,
    first to last. *)
Definition store_all (m : gmap string Overlay) (os : list Overlay)
  : gmap string Overlay :=
  foldl (λ m o, <[name o := o]> m) m os.

(** [DbBase.read].  The handler is for [xml.parsers.expat.ExpatError] only:
    it is where the hint is asked for, before [BrokenOverlayCatalog] is
    built.  A [ParseError] goes past it. *)
Definition read (text origin : string) (self : DbBase) : result () * DbBase :=
  match fromstring text with
  | inl (raised_ExpatError error) =>
      (do hint <- _broken_catalog_hint self;
       Raise (BrokenOverlayCatalog___init__ origin error hint), self)
  | inl (raised_ParseError message) => (Raise (ParseError message), self)
  | inr document =>
      read_loop (findall "overlay" document ++ findall "repo" document) self
  end.

(** [DbBase.read_file].  When the file cannot be opened, the handler reads
    [ignore_init_read_errors], a parameter of [__init__] that is bound
    nowhere in this method. *)
Definition read_file (path : string) (fs : files) (self : DbBase)
  : result () * DbBase :=
  match fs !! path with
  | None => (Raise (NameError "ignore_init_read_errors"), self)
  | Some document => read document path self
  end.

Fixpoint __init___loop (ps : list string) (fs : files) (self : DbBase)
  : result () * DbBase :=
  match ps with
  | [] => (Ok (), self)
  | path :: ps =>
      if bool_decide (is_Some (fs !! path)) then
        match read_file path fs self with
        | (Ok _, self) => __init___loop ps fs self
        | (Raise e, self) => (Raise e, self)
        end
      else __init___loop ps fs self
  end.

(** [DbBase.__init__], for an object of class [c]: the new object, unless
    reading one of the files raises. *)
Definition __init__ (c : class) (paths : list string) (fs : files) : result DbBase :=
  let self := {| __class__ := c; paths := paths; overlays := ∅ |} in
  match __init___loop paths fs self with
  | (Ok _, self) => Ok self
  | (Raise e, _) => Raise e
  end.

(** [DbBase.add_new], from XML text only; the dictionary form goes through
    another constructor of [Overlay]. *)
Definition add_new (xml : option string) (origin : string) (self : DbBase)
  : result () * DbBase :=
  match xml with
  | Some text => if bool_decide (text = EmptyString) then (Ok (), self)
                 else read text origin self
  | None => (Ok (), self)
  end.

Definition xml_declaration : string :=
  "<?xml version=" ++ dquote ++ "1.0" ++ dquote
  ++ " encoding=" ++ dquote ++ "UTF-8" ++ dquote ++ "?>" ++ nl.

(** The tree that [write] builds before it opens the file. *)
Definition write_tree (self : DbBase) : Element :=
  indent (mkElement "repositories" [("version", "1.0")] EmptyString
            (to_xml <$> values (overlays self))).

(** [DbBase.write].  [open_w path] tells whether [open(path, 'w')] succeeds
    and with which error it fails otherwise; once the file is open, the two
    writes and the close go through. *)
Definition write (open_w : string → result ()) (path : string)
    (self : DbBase) (fs : files) : result () * files :=
  let tree := write_tree self in
  match open_w path with
  | Ok _ => (Ok (), <[path := xml_declaration ++ tostring tree]> fs)
  | Raise error =>
      (Raise (Exception ("Failed to write to local overlays file: " ++ path
                         ++ nl ++ "Error was:" ++ nl ++ str error)), fs)
  end.

(** [DbBase.select] *)
Definition select (overlay : string) (self : DbBase) : result Overlay :=
  if negb (bool_decide (overlay ∈ keys (overlays self))) then
    raise_new (UnknownOverlayException___init__ overlay)
  else getitem (overlays self) overlay.

(** [DbBase.list_ids] *)
Definition list_ids (self : DbBase) : list string :=
  sorted (keys (overlays self)).

(** *** What the properties below speak of *)

(** The overlays that [read] stores for a document, in the order in which it
    stores them: those of the [overlay] children, then those of the [repo]
    children. *)
Definition found_overlays (doc : Element) : list Overlay :=
  omap accepted (findall "overlay" doc ++ findall "repo" doc)%list.

(** The overlays that [__init__] stores for a path: none when the path does
    not exist, those of the document when the file holds one whose elements
    the constructor accepts. *)
Definition loads (fs : files) (path : string) : option (list Overlay) :=
  match fs !! path with
  | None => Some []
  | Some text =>
      match fromstring text with
      | inl _ => None
      | inr doc =>
          if bool_decide (Forall (λ e, is_Some (accepted e))
                                 (findall "overlay" doc ++ findall "repo" doc)%list)
          then Some (found_overlays doc)
          else None
      end
  end.

(** The last overlay of a list that has a given name. *)
Definition last_named (k : string) (os : list Overlay) : option Overlay :=
  last (filter (λ o, name o = k) os).

(** *** list *)

Context `{!overlay.Listing}.

(** The only exception that [list] raises by itself. *)
Inductive list_error : Type :=
| TypeError (msg : string).

(** An entry of the result of [list]: summary, supported, official. *)
Definition list_entry (width : Z) (o : Overlay) : string * bool * bool :=
  (short_list o width, is_supported o, is_official o).

(** The loop of [list].  With [verbose], [result.append] is called on three
    arguments, which it does not take. *)
Fixpoint list_loop (selection : list Overlay) (verbose : bool) (width : Z)
    (result : list (string * bool * bool))
  : list_error + list (string * bool * bool) :=
  match selection with
  | [] => inr result
  | overlay :: selection =>
      if verbose then
        inl (TypeError "append() takes exactly one argument (3 given)")
      else list_loop selection verbose width (result ++ [list_entry width overlay])
  end.

(** The overlays that [list] goes through: all of them, in the order of the
    dictionary, or those whose name is in [repos] when [repos] is a list
    that is not empty. *)
Definition list_selection (repos : option (list string)) (self : DbBase)
  : list Overlay :=
  let selection := values (overlays self) in
  match repos with
  | None | Some [] => selection
  | Some repos => filter (λ o, name o ∈ repos) selection
  end.

(** [DbBase.list] *)
Definition DbBase_list (repos : option (list string)) (verbose : bool) (width : Z)
    (self : DbBase) : list_error + list (string * bool * bool) :=
  match list_loop (list_selection repos self) verbose width [] with
  | inl e => inl e
  | inr result => inr (sorted_by (λ e, lower e.1.1) result)
  end.

End methods.

End dbbase.

(** ** layman/db.py *)

Module db.

Import overlay dbbase.

(** The classes [DB] and [RemoteDB], as an interface.  They are catalogs
    ([DbBase] objects) backed by the installed list on disk, the
    cached remote lists and the working copies; [world] stands for all of
    that.  [DB_add] and [DB_delete] may change the catalog they are called on;
    [DB_sync] hands one installed overlay to the sync adapter and raises when
    the adapter fails. *)
Class Db (world : Type) : Type := {
  DB : world → result DbBase * world;
  RemoteDB : world → result DbBase * world;
  DB_add : DbBase → Overlay → bool → world → result () * DbBase * world;
  DB_delete : DbBase → Overlay → world → result () * DbBase * world;
  DB_sync : DbBase → string → bool → world → result () * world
}.

(** [RemoteDB.cache], which fetches the remote lists into the cache and may
    change the catalog it is called on. *)
Class RemoteCache (world : Type) : Type := {
  RemoteDB_cache : DbBase → world → result () * DbBase * world
}.

End db.

(** ** layman/api.py *)

Module api.

Import xml overlay dbbase db.

Definition ERROR_REPO_NOT_FOUND : Z := -1.
Definition ERROR_INTERNAL_ERROR : Z := -2.
Definition UNKNOWN_REPO_ID (id : string) : string :=
  "Repo ID " ++ squote ++ id ++ squote ++ " "
  ++ "is not listed in the current available overlays list".

(** A call on the message sink [self.output]. *)
Inductive output_call : Type :=
| info (msg : string) (level : Z)
| warn (msg : string) (level : Z)
| error (msg : string).

(** The dictionary that goes with the source-changed warning. *)
Record src_change : Type := {
  repo_name : string;
  current_src : string;
  candidates : string;
  plural : string
}.

(** An entry of the warning list of [sync]: the pair [(id, message)], or the
    triple [(id, format, dictionary)] of the source-changed warning, where a
    comma stands between the format and the dictionary. *)
Inductive warning : Type :=
| warning2 (id message : string)
| warning3 (id format : string) (args : src_change).

Definition warning_id (w : warning) : string :=
  match w with
  | warning2 id _ | warning3 id _ _ => id
  end.

(** The three local lists of [sync]. *)
Record sync_lists : Type := {
  fatals : list (string * string);
  warnings : list warning;
  success : list (string * string)
}.

Definition no_entries : sync_lists :=
  {| fatals := []; warnings := []; success := [] |}.

(** The ids that a triple of lists has entries for. *)
Definition fatal_ids (l : sync_lists) : list string := (fatals l).*1.
Definition warning_ids (l : sync_lists) : list string := warning_id <$> warnings l.
Definition success_ids (l : sync_lists) : list string := (success l).*1.

(** [id] has no entry in any of the three lists. *)
Definition no_entry (id : string) (l : sync_lists) : Prop :=
  (id ∉ fatal_ids l) ∧ (id ∉ warning_ids l) ∧ (id ∉ success_ids l).

(** [self.sync_results]: the empty list that [__init__] stores, or the tuple
    [(success, warnings, fatals)] that [sync] stores. *)
Inductive sync_results_value : Type :=
| empty_list
| lists (l : sync_lists).

(** A value of the dictionary that [get_all_info] and [get_info_str]
    return. *)
Inductive info_value : Type :=
| placeholder
| info_dict (name owner_name owner_email homepage description : string)
    (src_uris : list string) (src_type : string) (priority : Z)
    (quality status : string) (official supported : bool)
| info_tuple (info : string) (official supported : bool).

Section LaymanAPI.
Context {world : Type} `{!Db world} `{!HashOrder} `{!xml.Lib} `{!overlay.Methods}.

(** A [LaymanAPI] object once [__init__] has run, together with what lies
    behind its two catalogs.  [config_quiet] is [self.config['quiet']];
    [output] and [stderr] hold what was sent to the message sink and printed
    on the error stream, oldest first. *)
Record LaymanAPI : Type := {
  config_quiet : bool;
  report_errors : bool;
  _installed_db : DbBase;
  _installed_ids : list string;
  _available_db : DbBase;
  _available_ids : list string;
  _error_messages : list (string * string);
  sync_results : sync_results_value;
  output : list output_call;
  stderr : list (string * string);
  the_world : world
}.

Definition set_installed (d : DbBase) (ids : list string) (w : world)
    (self : LaymanAPI) : LaymanAPI :=
  {| config_quiet := config_quiet self; report_errors := report_errors self;
     _installed_db := d; _installed_ids := ids;
     _available_db := _available_db self; _available_ids := _available_ids self;
     _error_messages := _error_messages self; sync_results := sync_results self;
     output := output self; stderr := stderr self; the_world := w |}.

Definition set_available (d : DbBase) (ids : list string) (w : world)
    (self : LaymanAPI) : LaymanAPI :=
  {| config_quiet := config_quiet self; report_errors := report_errors self;
     _installed_db := _installed_db self; _installed_ids := _installed_ids self;
     _available_db := d; _available_ids := ids;
     _error_messages := _error_messages self; sync_results := sync_results self;
     output := output self; stderr := stderr self; the_world := w |}.

Definition set_world (w : world) (self : LaymanAPI) : LaymanAPI :=
  set_installed (_installed_db self) (_installed_ids self) w self.

Definition set_errors (msgs err : list (string * string)) (self : LaymanAPI)
  : LaymanAPI :=
  {| config_quiet := config_quiet self; report_errors := report_errors self;
     _installed_db := _installed_db self; _installed_ids := _installed_ids self;
     _available_db := _available_db self; _available_ids := _available_ids self;
     _error_messages := msgs; sync_results := sync_results self;
     output := output self; stderr := err; the_world := the_world self |}.

Definition set_sync_results (r : sync_results_value) (self : LaymanAPI)
  : LaymanAPI :=
  {| config_quiet := config_quiet self; report_errors := report_errors self;
     _installed_db := _installed_db self; _installed_ids := _installed_ids self;
     _available_db := _available_db self; _available_ids := _available_ids self;
     _error_messages := _error_messages self; sync_results := r;
     output := output self; stderr := stderr self; the_world := the_world self |}.

Definition emit (calls : list output_call) (self : LaymanAPI) : LaymanAPI :=
  {| config_quiet := config_quiet self; report_errors := report_errors self;
     _installed_db := _installed_db self; _installed_ids := _installed_ids self;
     _available_db := _available_db self; _available_ids := _available_ids self;
     _error_messages := _error_messages self; sync_results := sync_results self;
     output := (output self ++ calls)%list; stderr := stderr self;
     the_world := the_world self |}.

(** A method: from the object to an outcome and the object after the call. *)
Definition M (A : Type) : Type := LaymanAPI → result A * LaymanAPI.

Definition ret {A} (a : A) : M A := λ self, (Ok a, self).

Definition bindM {A B} (c : M A) (k : A → M B) : M B := λ self,
  match c self with
  | (Ok a, self) => k a self
  | (Raise e, self) => (Raise e, self)
  end.

(** An expression that does not change the object. *)
Definition eval {A} (f : LaymanAPI → result A) : M A := λ self, (f self, self).

(** [try: c except cls, e: h e] *)
Definition try_except {A} (c : M A) (cls : exn_class) (h : exn → M A) : M A :=
  λ self,
  match c self with
  | (Ok a, self) => (Ok a, self)
  | (Raise e, self) => if isinstance e cls then h e self else (Raise e, self)
  end.

Notation "'do!' x <- c ; k" := (bindM c (λ x, k))
  (at level 10, x name, c at level 100, k at level 200) : py_scope.

(** [LaymanAPI._error], which returns nothing and raises nothing. *)
Definition _error (num : Z) (message : string) (self : LaymanAPI) : LaymanAPI :=
  let m := ("Error: " ++ fmt_d num ++ ",", message) in
  set_errors (_error_messages self ++ [m])%list
             (if report_errors self then (stderr self ++ [m])%list else stderr self)
             self.

Definition _error_M (num : Z) (message : string) : M () :=
  λ self, (Ok (), _error num message self).

(** [LaymanAPI.get_errors]: the queue, emptied, or [None] when it is empty. *)
Definition get_errors : M (option (list (string * string))) := λ self,
  match _error_messages self with
  | [] => (Ok None, self)
  | messages => (Ok (Some messages), set_errors [] (stderr self) self)
  end.

(** [LaymanAPI.is_repo] *)
Definition is_repo (id : string) (self : LaymanAPI) : bool :=
  bool_decide (id ∈ _available_ids self).

(** [LaymanAPI.is_installed] *)
Definition is_installed (id : string) (self : LaymanAPI) : bool :=
  bool_decide (id ∈ _installed_ids self).

(** [LaymanAPI._check_repo_type], a static method: it has no [self], and
    the branch for any other type starts by looking that name up.
    [isinstance(repos, str)] is false of a [unicode] string, which is no
    list either and so takes that branch. *)
Definition _check_repo_type (repos : arg) (caller : string) : result (list string) :=
  match repos with
  | Str repos => Ok [repos]
  | List repos => Ok repos
  | Unicode _ | Int _ | None_ => Raise (NameError "self")
  end.

(** [LaymanAPI.get_available].  A catalog object is true, so without
    [reload] nothing is rebuilt. *)
Definition get_available (reload : bool) : M (list string) := λ self,
  if reload then
    match RemoteDB (the_world self) with
    | (Ok d, w) =>
        let ids := sorted (keys (overlays d)) in
        (Ok ids, set_available d ids w self)
    | (Raise e, w) => (Raise e, set_world w self)
    end
  else (Ok (_available_ids self), self).

(** [LaymanAPI.get_installed] *)
Definition get_installed (reload : bool) : M (list string) := λ self,
  if reload then
    match DB (the_world self) with
    | (Ok d, w) =>
        let ids := sorted (keys (overlays d)) in
        (Ok ids, set_installed d ids w self)
    | (Raise e, w) => (Raise e, set_world w self)
    end
  else (Ok (_installed_ids self), self).

(** [LaymanAPI.reload] *)
Definition reload : M () :=
  do! _ <- get_available true;
  do! _ <- get_installed true;
  ret ().

(** [self._installed_db.delete(self._installed_db.select(id))] *)
Definition installed_delete (id : string) : M () := λ self,
  match select id (_installed_db self) with
  | Raise e => (Raise e, self)
  | Ok ovl =>
      let '(r, d, w) := DB_delete (_installed_db self) ovl (the_world self) in
      (r, set_installed d (_installed_ids self) w self)
  end.

(** [self._installed_db.add(self._available_db.select(id), quiet=True)] *)
Definition installed_add (id : string) : M () := λ self,
  match select id (_available_db self) with
  | Raise e => (Raise e, self)
  | Ok ovl =>
      let '(r, d, w) := DB_add (_installed_db self) ovl true (the_world self) in
      (r, set_installed d (_installed_ids self) w self)
  end.

(** The loop of [delete_repos], from the ids still to go and the results so
    far to the results at the end.  Both early branches end in [break]. *)
Fixpoint delete_repos_loop (repos : list string) (results : list bool)
  : M (list bool) :=
  match repos with
  | [] => ret results
  | id :: repos =>
      do! installed <- eval (λ self, Ok (is_installed id self));
      if negb installed then ret (results ++ [true])%list
      else
        do! known <- eval (λ self, Ok (is_repo id self));
        if negb known then
          do! _ <- _error_M 1 (UNKNOWN_REPO_ID id);
          ret (results ++ [false])%list
        else
          do! results <-
            try_except
              (do! _ <- installed_delete id; ret (results ++ [true])%list)
              ExceptionClass
              (λ e,
                 do! _ <- _error_M ERROR_INTERNAL_ERROR
                            ("Failed to disable repository " ++ squote ++ id
                             ++ squote ++ ":" ++ nl ++ str e);
                 ret (results ++ [false])%list);
          do! _ <- get_installed true;
          delete_repos_loop repos results
  end.

(** [False in results] decides what the two batch calls return. *)
Definition overall (results : list bool) : bool :=
  negb (bool_decide (false ∈ results)).

(** [LaymanAPI.delete_repos] *)
Definition delete_repos (repos : arg) : M bool :=
  do! repos <- eval (λ _, _check_repo_type repos "delete_repo");
  do! results <- delete_repos_loop repos [];
  ret (overall results).

(** The loop of [add_repos]. *)
Fixpoint add_repos_loop (repos : list string) (results : list bool)
  : M (list bool) :=
  match repos with
  | [] => ret results
  | id :: repos =>
      do! installed <- eval (λ self, Ok (is_installed id self));
      if installed then ret (results ++ [true])%list
      else
        do! known <- eval (λ self, Ok (is_repo id self));
        if negb known then
          do! _ <- _error_M 1 (UNKNOWN_REPO_ID id);
          ret (results ++ [false])%list
        else
          do! results <-
            try_except
              (do! _ <- installed_add id; ret (results ++ [true])%list)
              ExceptionClass
              (λ e,
                 do! _ <- _error_M ERROR_INTERNAL_ERROR
                            ("Failed to enable repository " ++ squote ++ id
                             ++ squote ++ " : " ++ str e);
                 ret (results ++ [false])%list);
          do! _ <- get_installed true;
          add_repos_loop repos results
  end.

(** [LaymanAPI.add_repos] *)
Definition add_repos (repos : arg) : M bool :=
  do! repos <- eval (λ _, _check_repo_type repos "add_repo");
  do! results <- add_repos_loop repos [];
  ret (overall results).

(** [overlay.sources[0]] *)
Definition first_source (o : Overlay) : result Source :=
  match sources o with
  | s :: _ => Ok s
  | [] => Raise (IndexError "list index out of range")
  end.

(** One round of the loop of [get_all_info], on the dictionary built so
    far.  The first test has no [continue]: an id that is not listed falls
    through to [select]. *)
Definition get_all_info_step (id : string) (result : gmap string info_value)
  : M (gmap string info_value) :=
  do! known <- eval (λ self, Ok (is_repo id self));
  do! result <-
    (if negb known then
       do! _ <- _error_M 1 (UNKNOWN_REPO_ID id);
       ret (<[id := placeholder]> result)
     else ret result);
  λ self,
    match select id (_available_db self) with
    | Raise e =>
        if isinstance e UnknownOverlayExceptionClass then
          (Ok (<[id := placeholder]> result), _error 2 ("Error: " ++ str e) self)
        else (Raise e, self)
    | Ok overlay =>
        (do s0 <- first_source overlay;
         Ok (<[id := info_dict (name overlay) (owner_name overlay)
                       (owner_email overlay) (homepage overlay)
                       (description overlay) (source_uris overlay) (type s0)
                       (priority overlay) (quality overlay) (status overlay)
                       (is_official overlay) (is_supported overlay)]> result),
         self)
    end.

Fixpoint get_all_info_loop (repos : list string) (result : gmap string info_value)
  : M (gmap string info_value) :=
  match repos with
  | [] => ret result
  | id :: repos =>
      do! result <- get_all_info_step id result;
      get_all_info_loop repos result
  end.

(** [LaymanAPI.get_all_info] *)
Definition get_all_info (repos : arg) : M (gmap string info_value) :=
  do! repos <- eval (λ _, _check_repo_type repos "get_info");
  get_all_info_loop repos ∅.

Definition get_info_str_step (id : string) (result : gmap string info_value)
  : M (gmap string info_value) :=
  do! known <- eval (λ self, Ok (is_repo id self));
  do! result <-
    (if negb known then
       do! _ <- _error_M 1 (UNKNOWN_REPO_ID id);
       ret (<[id := placeholder]> result)
     else ret result);
  λ self,
    match select id (_available_db self) with
    | Raise e =>
        if isinstance e UnknownOverlayExceptionClass then
          (Ok (<[id := placeholder]> result), _error 2 ("Error: " ++ str e) self)
        else (Raise e, self)
    | Ok overlay =>
        (Ok (<[id := info_tuple (__str__ overlay) (is_official overlay)
                        (is_supported overlay)]> result),
         self)
    end.

Fixpoint get_info_str_loop (repos : list string) (result : gmap string info_value)
  : M (gmap string info_value) :=
  match repos with
  | [] => ret result
  | id :: repos =>
      do! result <- get_info_str_step id result;
      get_info_str_loop repos result
  end.

(** [LaymanAPI.get_info_str] *)
Definition get_info_str (repos : arg) : M (gmap string info_value) :=
  do! repos <- eval (λ _, _check_repo_type repos "get_info");
  get_info_str_loop repos ∅.

(** *** sync *)

Definition add_fatal (e : string * string) (l : sync_lists) : sync_lists :=
  {| fatals := (fatals l ++ [e])%list; warnings := warnings l;
     success := success l |}.

Definition add_warning (w : warning) (l : sync_lists) : sync_lists :=
  {| fatals := fatals l; warnings := (warnings l ++ [w])%list;
     success := success l |}.

Definition add_success (e : string * string) (l : sync_lists) : sync_lists :=
  {| fatals := fatals l; warnings := warnings l;
     success := (success l ++ [e])%list |}.

Definition not_found_message (id : string) : string :=
  "Overlay " ++ dquote ++ id ++ dquote
  ++ " could not be found in the remote lists." ++ nl
  ++ "Please check if it has been renamed and re-add if necessary.".

Definition source_changed_format : string :=
  "The source of the overlay " ++ dquote ++ "%(repo_name)s" ++ dquote
  ++ " seems to have changed." ++ nl
  ++ "You currently sync from" ++ nl
  ++ nl
  ++ "  %(current_src)s" ++ nl
  ++ nl
  ++ "while the remote lists report" ++ nl
  ++ nl
  ++ "%(candidates)s" ++ nl
  ++ nl
  ++ "as correct location%(plural)s." ++ nl
  ++ "Please consider removing and re-adding the overlay.".

(** The [else] branch of the second [try] of [sync]: the installed primary
    source against the sources on offer.  Overlay objects are true. *)
Definition check_source (id : string) (odb ordb : Overlay) (l : sync_lists)
  : result sync_lists :=
  do s0 <- first_source odb;
  let current_src := src s0 in
  let available_srcs := set_of (src <$> sources ordb) in
  if negb (bool_decide (current_src ∈ available_srcs)) then
    let '(plural, candidates) :=
      match available_srcs with
      | [v] => (EmptyString, "  " ++ v)
      | _ => ("s", String.concat nl
                     (imap (λ i v, "  " ++ fmt_d (Z.of_nat i + 1) ++ ". " ++ v)
                           available_srcs))
      end in
    Ok (add_warning
          (warning3 id source_changed_format
             {| repo_name := id; current_src := current_src;
                candidates := candidates; plural := plural |}) l)
  else Ok l.

(** One round of the loop of [sync], on the three lists: the outcome, the
    lists and the object as the round leaves them. *)
Definition sync_step (id : string) (l : sync_lists) (self : LaymanAPI)
  : result () * sync_lists * LaymanAPI :=
  match select id (_installed_db self) with
  | Raise e =>
      if isinstance e UnknownOverlayExceptionClass then
        (Ok (), l,
         _error 1 ("Sync(), failed to select " ++ id
                   ++ " overlay.  Original error was: " ++ str e) self)
      else (Raise e, l, self)
  | Ok odb =>
      let checked :=
        match select id (_available_db self) with
        | Raise e =>
            if isinstance e UnknownOverlayExceptionClass then
              Ok (add_warning (warning2 id (not_found_message id)) l)
            else Raise e
        | Ok ordb => check_source id odb ordb l
        end in
      match checked with
      | Raise e => (Raise e, l, self)
      | Ok l =>
          match DB_sync (_installed_db self) id (config_quiet self)
                        (the_world self) with
          | (Ok _, w) =>
              (Ok (),
               add_success (id, "Successfully synchronized overlay " ++ dquote
                                ++ id ++ dquote ++ ".") l,
               set_world w self)
          | (Raise e, w) =>
              (Ok (),
               add_fatal (id, "Failed to sync overlay " ++ dquote ++ id ++ dquote
                              ++ "." ++ nl ++ "Error was: " ++ str e) l,
               set_world w self)
          end
      end
  end.

Fixpoint sync_loop (repos : list string) (l : sync_lists) (self : LaymanAPI)
  : result () * sync_lists * LaymanAPI :=
  match repos with
  | [] => (Ok (), l, self)
  | id :: repos =>
      match sync_step id l self with
      | (Ok _, l, self) => sync_loop repos l self
      | (Raise e, l, self) => (Raise e, l, self)
      end
  end.

(** [for id, result in warnings: self.output.warn(result + nl, 2)]: a
    triple does not unpack into two names. *)
Fixpoint report_warnings (ws : list warning) : M () :=
  match ws with
  | [] => ret ()
  | warning2 _ result :: ws =>
      do! _ <- (λ self, (Ok (), emit [warn (result ++ nl) 2] self));
      report_warnings ws
  | warning3 _ _ _ :: _ =>
      λ self, (Raise (ValueError "too many values to unpack"), self)
  end.

(** The three parts of the block under [if output_results:]. *)
Definition report_success (l : sync_lists) : M () :=
  match success l with
  | [] => ret ()
  | _ => λ self,
      (Ok (), emit (info (nl ++ "Success:" ++ nl ++ "------" ++ nl) 3
                    :: ((λ e, info e.2 3) <$> success l)) self)
  end.

Definition report_all_warnings (l : sync_lists) : M () :=
  match warnings l with
  | [] => ret ()
  | _ =>
      do! _ <- (λ self,
                  (Ok (), emit [warn (nl ++ "Warnings:" ++ nl ++ "------" ++ nl) 2]
                               self));
      report_warnings (warnings l)
  end.

(** The outcome tells whether [return False] has been executed. *)
Definition report_fatals (l : sync_lists) : M bool :=
  match fatals l with
  | [] => ret false
  | _ => λ self,
      (Ok true, emit (error (nl ++ "Errors:" ++ nl ++ "------" ++ nl)
                      :: ((λ e, error (e.2 ++ nl)) <$> fatals l)) self)
  end.

Definition report (l : sync_lists) : M bool :=
  do! _ <- report_success l;
  do! _ <- report_all_warnings l;
  report_fatals l.

(** [LaymanAPI.sync] *)
Definition sync (repos : arg) (output_results : bool) : M bool :=
  do! repos <- eval (λ _, _check_repo_type repos "sync");
  do! l <- (λ self,
              match sync_loop repos no_entries self with
              | (Ok _, l, self) => (Ok l, self)
              | (Raise e, _, self) => (Raise e, self)
              end);
  do! returned <- (if output_results then report l else ret false);
  if returned then ret false
  else
    do! _ <- (λ self, (Ok (), set_sync_results (lists l) self));
    ret true.

(** [LaymanAPI.__init__]: the fields, then [reload]. *)
Definition __init__ (quiet report_errors : bool) (w : world) : result LaymanAPI * world :=
  match RemoteDB w with
  | (Raise e, w) => (Raise e, w)
  | (Ok available, w) =>
      match DB w with
      | (Raise e, w) => (Raise e, w)
      | (Ok installed, w) =>
          (Ok {| config_quiet := quiet; report_errors := report_errors;
                 _installed_db := installed;
                 _installed_ids := sorted (keys (overlays installed));
                 _available_db := available;
                 _available_ids := sorted (keys (overlays available));
                 _error_messages := []; sync_results := empty_list;
                 output := []; stderr := []; the_world := w |}, w)
      end
  end.

(** *** fetch_remote_list *)

Context `{!RemoteCache world}.

(** [self._available_db.cache()] *)
Definition available_cache : M () := λ self,
  let '(r, d, w) := RemoteDB_cache (_available_db self) (the_world self) in
  (r, set_available d (_available_ids self) w self).

(** [LaymanAPI.fetch_remote_list] *)
Definition fetch_remote_list : M bool :=
  try_except
    (do! _ <- available_cache; ret true)
    ExceptionClass
    (λ error,
       do! _ <- _error_M (-1) ("Failed to fetch overlay list!" ++ nl
                               ++ " Original Error was: " ++ str error);
       ret false).

(** *** What the properties below speak of *)

(** The two lists of ids are the sorted names of the two catalogs, as
    [get_installed] and [get_available] leave them after a reload. *)
Definition installed_ids_current (self : LaymanAPI) : Prop :=
  _installed_ids self = sorted (keys (overlays (_installed_db self))).

Definition available_ids_current (self : LaymanAPI) : Prop :=
  _available_ids self = sorted (keys (overlays (_available_db self))).

(** The values that [get_all_info] and [get_info_str] store for an
    overlay. *)
Definition info_dict_of (o : Overlay) (s0 : Source) : info_value :=
  info_dict (name o) (owner_name o) (owner_email o) (homepage o) (description o)
            (source_uris o) (type s0) (priority o) (quality o) (status o)
            (is_official o) (is_supported o).

(** The entry that [get_all_info] stores for an overlay, which must have a
    source. *)
Definition info_dict_entry (o : Overlay) : option info_value :=
  match sources o with
  | s0 :: _ => Some (info_dict_of o s0)
  | [] => None
  end.

Definition info_tuple_of (o : Overlay) : info_value :=
  info_tuple (__str__ o) (is_official o) (is_supported o).

(** What the results and the queue of a batch call have to do with each
    other: the results have grown by some booleans, and the queue by as many
    messages as there are [False] among them. *)
Definition grown (results results' : list bool)
    (msgs msgs' : list (string * string)) : Prop :=
  ∃ rs es, results' = (results ++ rs)%list ∧ msgs' = (msgs ++ es)%list
           ∧ length es = length (filter (λ b, b = false) rs).

(** The entry of the warning list is a triple. *)
Definition is_triple (w : warning) : Prop :=
  match w with
  | warning3 _ _ _ => True
  | warning2 _ _ => False
  end.

End LaymanAPI.

End api.

(** ** Concrete collaborators

    One instance of each interface above, and a few catalogs, on which the
    methods can be run. *)

Module fixture.

Import xml overlay dbbase db api.

(** Hashed containers that happen to keep their elements in key order. *)
Definition order : HashOrder :=
  {| dict_order := id; set_order := id;
     dict_order_perm := λ l, reflexivity (R := Permutation) l;
     set_order_perm := λ l, reflexivity (R := Permutation) l |}.

(** *** An XML library

    Elements are written as counted fields, which need no escaping:
    a string as its length, a colon and its characters; a list as its length,
    a colon and its items. *)

Definition put_string (s : string) : string :=
  pretty (String.length s) ++ ":" ++ s.

Fixpoint put_element (e : Element) : string :=
  let 'mkElement t a x c := e in
  put_string t
  ++ pretty (length a) ++ ":"
  ++ String.concat EmptyString ((λ kv, put_string kv.1 ++ put_string kv.2) <$> a)
  ++ put_string x
  ++ pretty (length c) ++ ":"
  ++ String.concat EmptyString (put_element <$> c).

Fixpoint get_nat (s : string) (acc : nat) : option (nat * string) :=
  match s with
  | EmptyString => None
  | String c s =>
      if bool_decide (c = Ascii.ascii_of_nat 58) then Some (acc, s)
      else
        match Ascii.is_nat c with
        | Some d => get_nat s (10 * acc + d)%nat
        | None => None
        end
  end.

Fixpoint split_at (n : nat) (s : string) : option (string * string) :=
  match n, s with
  | O, _ => Some (EmptyString, s)
  | S n, String c s =>
      match split_at n s with
      | Some (a, b) => Some (String c a, b)
      | None => None
      end
  | S _, EmptyString => None
  end.

Definition get_string (s : string) : option (string * string) :=
  match get_nat s 0 with
  | Some (n, s) => split_at n s
  | None => None
  end.

Fixpoint get_many {A} (get : string → option (A * string)) (n : nat) (s : string)
  : option (list A * string) :=
  match n with
  | O => Some ([], s)
  | S n =>
      match get s with
      | Some (a, s) =>
          match get_many get n s with
          | Some (l, s) => Some (a :: l, s)
          | None => None
          end
      | None => None
      end
  end.

Definition get_pair (s : string) : option ((string * string) * string) :=
  match get_string s with
  | Some (k, s) =>
      match get_string s with
      | Some (v, s) => Some ((k, v), s)
      | None => None
      end
  | None => None
  end.

Fixpoint get_element (fuel : nat) (s : string) : option (Element * string) :=
  match fuel with
  | O => None
  | S fuel =>
      match get_string s with
      | Some (t, s) =>
          match get_nat s 0 with
          | Some (na, s) =>
              match get_many get_pair na s with
              | Some (a, s) =>
                  match get_string s with
                  | Some (x, s) =>
                      match get_nat s 0 with
                      | Some (nc, s) =>
                          match get_many (get_element fuel) nc s with
                          | Some (c, s) => Some (mkElement t a x c, s)
                          | None => None
                          end
                      | None => None
                      end
                  | None => None
                  end
              | None => None
              end
          | None => None
          end
      | None => None
      end
  end.

(** The declaration line is skipped, then one element must fill the rest.
    [raised] is how the library reports text that is not well formed. *)
Definition parse (raised : ExpatError → failure) (text : string)
  : failure + Element :=
  match split_at (String.length xml_declaration) text with
  | Some (decl, body) =>
      if bool_decide (decl = xml_declaration) then
        match get_element (String.length body) body with
        | Some (e, EmptyString) => inr e
        | _ => inl (raised {| lineno := 2; offset := 0 |})
        end
      else inl (raised {| lineno := 1; offset := 0 |})
  | None => inl (raised {| lineno := 1; offset := 0 |})
  end.

(** The report of ElementTree from Python 2.7 on: a [ParseError] whose
    message ends in the position. *)
Definition as_ParseError (error : ExpatError) : failure :=
  raised_ParseError ("syntax error: line " ++ fmt_d (lineno error)
                     ++ ", column " ++ fmt_d (offset error)).

(** Line breaks inside the elements that have children, as an indenter
    leaves them. *)
Fixpoint break_lines (e : Element) : Element :=
  let 'mkElement t a x c := e in
  match c with
  | [] => e
  | _ => mkElement t a (nl ++ x) (break_lines <$> c)
  end.

Definition xml_lib : xml.Lib :=
  {| fromstring := parse raised_ExpatError; tostring := put_element;
     indent := break_lines |}.

(** The same library as Python 2.7 has it. *)
Definition xml_lib_27 : xml.Lib :=
  {| fromstring := parse as_ParseError; tostring := put_element;
     indent := break_lines |}.

(** *** The class Overlay *)

Definition leaf (t x : string) : Element := mkElement t [] x [].

Definition source_to_xml (s : Source) : Element :=
  mkElement "source" [("type", type s)] (src s) [].

(** Modelled from the spec: [Overlay.to_xml] is missing; section 6 gives the
    element: a [name] attribute, one child for each of description,
    homepage, owner (name and email), priority, quality and status, and one
    [source] child per source with a [type] attribute and the uri as text. *)
Definition overlay_to_xml (o : Overlay) : Element :=
  mkElement "repo" [("name", name o)] EmptyString
    ([leaf "description" (description o);
      leaf "homepage" (homepage o);
      mkElement "owner" [] EmptyString
        [leaf "name" (owner_name o); leaf "email" (owner_email o)];
      leaf "priority" (fmt_d (priority o));
      leaf "quality" (quality o);
      leaf "status" (status o)]
     ++ (source_to_xml <$> sources o)).

Fixpoint digits (s : string) (acc : Z) : option Z :=
  match s with
  | EmptyString => Some acc
  | String c s =>
      match Ascii.is_nat c with
      | Some d => digits s (10 * acc + Z.of_nat d)
      | None => None
      end
  end.

Definition int_of_string (s : string) : option Z :=
  match s with
  | EmptyString => None
  | String c s' =>
      if bool_decide (c = Ascii.ascii_of_nat 45) then
        match s' with
        | EmptyString => None
        | _ => Z.opp <$> digits s' 0
        end
      else digits s 0
  end.

Definition child_text (t : string) (e : Element) : string :=
  match findall t e with
  | c :: _ => text c
  | [] => EmptyString
  end.

Definition attribute (k : string) (e : Element) : option string :=
  (list_to_map (attrib e) : gmap string string) !! k.

(** Modelled from the spec: the constructor of [Overlay] from an element is
    missing; it reads back what section 6 lists, and section 3 has it reject
    an element without a source. *)
Definition overlay_of_xml (e : Element) : result Overlay :=
  match attribute "name" e with
  | None => Raise (Exception "Overlay is missing a name attribute")
  | Some n =>
      match int_of_string (child_text "priority" e) with
      | None => Raise (ValueError "invalid literal for int()")
      | Some p =>
          let owner := default (leaf "owner" EmptyString) (head (findall "owner" e)) in
          let srcs :=
            (λ c, {| type := default EmptyString (attribute "type" c);
                     src := text c |}) <$> findall "source" e in
          match srcs with
          | [] => Raise (Exception ("Overlay " ++ dquote ++ n ++ dquote
                                    ++ " is missing a source entry"))
          | _ =>
              Ok {| name := n;
                    description := child_text "description" e;
                    homepage := child_text "homepage" e;
                    owner_name := child_text "name" owner;
                    owner_email := child_text "email" owner;
                    priority := p;
                    quality := child_text "quality" e;
                    status := child_text "status" e;
                    sources := srcs |}
          end
      end
  end.

Definition methods : overlay.Methods :=
  {| of_xml := overlay_of_xml;
     to_xml := overlay_to_xml;
     __str__ := λ o, name o ++ nl ++ String.concat nl (source_uris o);
     is_official := λ o, bool_decide (status o = "official");
     is_supported := λ o, bool_decide (type <$> head (sources o) = Some "rsync") |}.

(** *** The catalogs DB and RemoteDB *)

(** The installed list and the remote lists as they stand on disk, the ids
    whose working copy the adapter cannot update, and the ids handed to the
    adapter so far, oldest first. *)
Record world : Type := {
  installed_list : gmap string Overlay;
  remote_lists : gmap string Overlay;
  unreachable : list string;
  adapter_calls : list string
}.

Definition DB_class : class :=
  {| __name__ := "DB";
     hint_override := Some (Ok (Some "re-add your overlays")) |}.

Definition RemoteDB_class : class :=
  {| __name__ := "RemoteDB";
     hint_override := Some (Ok (Some "fetch the remote lists again")) |}.

Definition store (m : gmap string Overlay) (w : world) : world :=
  {| installed_list := m; remote_lists := remote_lists w;
     unreachable := unreachable w; adapter_calls := adapter_calls w |}.

Definition called (id : string) (w : world) : world :=
  {| installed_list := installed_list w; remote_lists := remote_lists w;
     unreachable := unreachable w;
     adapter_calls := (adapter_calls w ++ [id])%list |}.

(** Modelled from the spec: [layman/db.py] is missing; section 4.3 has
    [add] copy the definition into the installed catalog and persist it,
    [delete] remove it and persist, and [sync] delegate to the adapter, whose
    failure is an error raised to the caller. *)
Definition database : Db world :=
  {| DB := λ w,
       (Ok {| __class__ := DB_class; paths := ["installed.xml"];
              overlays := installed_list w |}, w);
     RemoteDB := λ w,
       (Ok {| __class__ := RemoteDB_class; paths := ["cache.xml"];
              overlays := remote_lists w |}, w);
     DB_add := λ d o _ w,
       let m := <[name o := o]> (overlays d) in
       (Ok (), set_overlays m d, store m w);
     DB_delete := λ d o w,
       let m := delete (name o) (overlays d) in
       (Ok (), set_overlays m d, store m w);
     DB_sync := λ d id _ w,
       if bool_decide (id ∈ unreachable w) then
         (Raise (Exception ("cannot reach the source of " ++ id)), called id w)
       else (Ok (), called id w) |}.

Definition an_overlay (n : string) (srcs : list Source) : Overlay :=
  {| name := n; description := "Test"; homepage := "https://example.org/" ++ n;
     owner_name := EmptyString; owner_email := "nobody@gentoo.org";
     priority := 50; quality := "experimental"; status := "unofficial";
     sources := srcs |}.

Definition rsync (uri : string) : Source := {| type := "rsync"; src := uri |}.

Definition wrobel : Overlay :=
  an_overlay "wrobel" [{| type := "svn"; src := "https://overlays.gentoo.org/svn/dev/wrobel" |}].

Definition wrobel_stable : Overlay :=
  an_overlay "wrobel-stable" [rsync "rsync://gunnarwrobel.de/wrobel-stable"].

(** Installed: [wrobel], [moved] (which the remote lists offer from two other
    places), [gone] (which the remote lists no longer have) and [down]
    (whose source cannot be reached).  On offer and not installed:
    [wrobel-stable]. *)
Definition a_world : world :=
  {| installed_list :=
       list_to_map
         [("wrobel", wrobel);
          ("moved", an_overlay "moved" [rsync "rsync://a.example/moved"]);
          ("gone", an_overlay "gone" [rsync "rsync://a.example/gone"]);
          ("down", an_overlay "down" [rsync "rsync://a.example/down"])];
     remote_lists :=
       list_to_map
         [("wrobel", wrobel);
          ("wrobel-stable", wrobel_stable);
          ("moved", an_overlay "moved" [rsync "rsync://b.example/moved";
                                        rsync "rsync://c.example/moved"]);
          ("down", an_overlay "down" [rsync "rsync://a.example/down"])];
     unreachable := ["down"];
     adapter_calls := [] |}.

(** The API object that [__init__] builds on [a_world]. *)
Definition an_api : LaymanAPI (world := world) :=
  let installed :=
    {| __class__ := DB_class; paths := ["installed.xml"];
       overlays := installed_list a_world |} in
  let available :=
    {| __class__ := RemoteDB_class; paths := ["cache.xml"];
       overlays := remote_lists a_world |} in
  {| config_quiet := false; report_errors := true;
     _installed_db := installed;
     _installed_ids := ["down"; "gone"; "moved"; "wrobel"];
     _available_db := available;
     _available_ids := ["down"; "moved"; "wrobel"; "wrobel-stable"];
     _error_messages := []; sync_results := empty_list;
     output := []; stderr := []; the_world := a_world |}.

(** A catalog of the base class, as the doctests of [dbbase.py] build
    them. *)
Definition a_catalog : DbBase :=
  {| __class__ := DbBase_class; paths := ["global-overlays.xml"];
     overlays := list_to_map [("wrobel", wrobel); ("wrobel-stable", wrobel_stable)] |}.

(** A disk that can always be written, and what [write] leaves on it for
    [a_catalog]. *)
Definition always_open : string → result () := λ _, Ok ().

Definition written : files :=
  let _ := order in let _ := xml_lib in let _ := methods in
  <["overlays.xml" := xml_declaration ++ tostring (write_tree a_catalog)]> ∅.

(** A text that is not a document. *)
Definition ill_formed : string := "<repositories>".

(** Summaries cut or padded to the width, and a cache that can be fetched
    unless the remote end is among the unreachable. *)
Definition pad (width : Z) (s : string) : string :=
  let n := Z.to_nat width in
  let cut := String.substring 0 n s in
  cut ++ String.concat EmptyString (replicate (n - String.length cut) " ").

Definition listing : overlay.Listing :=
  {| short_list := λ o width, pad width (name o) |}.

Definition remote_cache : RemoteCache world :=
  {| RemoteDB_cache := λ d w,
       if bool_decide ("remote" ∈ unreachable w) then
         (Raise (IOError "cannot reach the remote lists"), d, w)
       else (Ok (), d, w) |}.

(** Documents: that of [a_catalog]; one where wrobel comes twice, first as a
    [repo] with another priority, then as an [overlay]; one whose second
    element has no source. *)
Definition document (kids : list Element) : Element :=
  mkElement "repositories" [("version", "1.0")] EmptyString kids.

Definition text_of (doc : Element) : string :=
  xml_declaration ++ put_element doc.

Definition a_document : Element :=
  let _ := order in let _ := methods in
  document (overlay_to_xml <$> values (overlays a_catalog)).

Definition retag (t : string) (e : Element) : Element :=
  mkElement t (attrib e) (text e) (children e).

Definition wrobel_again : Overlay :=
  {| name := "wrobel"; description := "Test"; homepage := "https://example.org/wrobel";
     owner_name := EmptyString; owner_email := "nobody@gentoo.org";
     priority := 10; quality := "experimental"; status := "unofficial";
     sources := [rsync "rsync://example.org/wrobel"] |}.

Definition mixed_document : Element :=
  document [overlay_to_xml wrobel_again; retag "overlay" (overlay_to_xml wrobel)].

Definition no_source : Element := overlay_to_xml (an_overlay "empty" []).

Definition broken_document : Element :=
  document [overlay_to_xml wrobel; no_source; overlay_to_xml wrobel_stable].

Definition some_files : files :=
  list_to_map [("global.xml", text_of a_document); ("local.xml", text_of mixed_document)].

Definition an_empty_catalog : DbBase :=
  {| __class__ := DbBase_class; paths := []; overlays := ∅ |}.

End fixture.

(** * Properties *)

(** ** Catalogs *)

Section dbbase_facts.
Import xml overlay dbbase.
Context `{!HashOrder} `{!xml.Lib} `{!overlay.Methods}.
Local Open Scope list_scope.

Lemma keys_perm {A} (d : gmap string A) : keys d ≡ₚ (map_to_list d).*1.
Proof. apply dict_order_perm. Qed.

Lemma elem_of_keys {A} (d : gmap string A) (k : string) :
  k ∈ keys d ↔ is_Some (d !! k).
Proof.
  rewrite keys_perm, list_elem_of_fmap. split.
  - intros [[k' v] [-> Hin]]. apply elem_of_map_to_list in Hin. by exists v.
  - intros [v Hv]. exists (k, v). split; [done|]. by apply elem_of_map_to_list.
Qed.

Lemma NoDup_keys {A} (d : gmap string A) : NoDup (keys d).
Proof. rewrite keys_perm. apply NoDup_fst_map_to_list. Qed.

Lemma values_perm {A} (d : gmap string A) : values d ≡ₚ (map_to_list d).*2.
Proof.
  unfold values. rewrite keys_perm.
  assert (Hall : ∀ l : list (string * A),
             (∀ k v, (k, v) ∈ l → d !! k = Some v) →
             omap (λ k, d !! k) l.*1 = l.*2).
  { induction l as [|[k v] l IH]; intros Hl; [done|]. simpl.
    rewrite (Hl k v) by left. f_equal. apply IH. intros ???. apply Hl. by right. }
  rewrite Hall; [done|]. intros k v. by rewrite elem_of_map_to_list.
Qed.

Lemma getitem_Some {A} (d : gmap string A) k v :
  d !! k = Some v → getitem d k = Ok v.
Proof. unfold getitem. by intros ->. Qed.

(** [select] on a name of the catalog returns the entry. *)
Lemma select_present (self : DbBase) (n : string) (o : Overlay) :
  overlays self !! n = Some o → select n self = Ok o.
Proof.
  intros Hn. unfold select.
  rewrite bool_decide_eq_true_2 by (apply elem_of_keys; eauto).
  simpl. by apply getitem_Some.
Qed.

(** [select] on any other name dies in the constructor of the exception it
    means to raise. *)
Lemma select_absent (self : DbBase) (n : string) :
  overlays self !! n = None → select n self = Raise (NameError "message").
Proof.
  intros Hn. unfold select.
  rewrite bool_decide_eq_false_2; [done|].
  rewrite elem_of_keys, Hn. by intros [? ?].
Qed.

Lemma elem_of_set_of (l : list string) (k : string) : k ∈ set_of l ↔ k ∈ l.
Proof. unfold set_of. by rewrite set_order_perm, elem_of_remove_dups. Qed.

Lemma __eq___loop_same (ks : list string) (self other : DbBase) :
  overlays self = overlays other →
  Forall (λ k, is_Some (overlays self !! k)) ks →
  __eq___loop ks self other = Ok true.
Proof.
  intros Hsame. induction 1 as [|k ks [o Ho] _ IH]; [done|]. simpl.
  rewrite <- Hsame, (getitem_Some _ _ _ Ho). simpl.
  unfold overlay.__ne__. by rewrite bool_decide_eq_false_2 by (by intros []).
Qed.

(** Two catalogs with the same mapping are equal for [__eq__]; no key is
    missing on either side, so the comparison does not raise. *)
Lemma __eq___same (self other : DbBase) :
  overlays self = overlays other → __eq__ self other = Ok true.
Proof.
  intros Hsame. unfold __eq__. apply __eq___loop_same; [done|].
  apply Forall_forall. intros k.
  rewrite elem_of_set_of, elem_of_app, <- Hsame, !elem_of_keys. tauto.
Qed.

Lemma read_loop_accepted (elems : list Element) (self : DbBase) :
  Forall (λ e, is_Some (accepted e)) elems →
  read_loop elems self
  = (Ok (), set_overlays (store_all (overlays self) (omap accepted elems)) self).
Proof.
  intros Hall. revert self.
  induction Hall as [|e elems [o Ho] _ IH]; intros self; simpl.
  - by destruct self.
  - unfold accepted in Ho |- *. destruct (of_xml e) as [o'|]; [|done].
    injection Ho as ->. simpl. by rewrite IH.
Qed.

Lemma store_all_other (os : list Overlay) (m : gmap string Overlay) (k : string) :
  k ∉ name <$> os → store_all m os !! k = m !! k.
Proof.
  revert m. induction os as [|o os IH]; intros m Hk; [done|]. simpl.
  rewrite fmap_cons, not_elem_of_cons in Hk. destruct Hk as [Hne Hk].
  rewrite IH by done. by rewrite lookup_insert_ne.
Qed.

Lemma store_all_lookup (os : list Overlay) (m : gmap string Overlay) (o : Overlay) :
  NoDup (name <$> os) → o ∈ os → store_all m os !! name o = Some o.
Proof.
  revert m. induction os as [|o' os IH]; intros m Hnd Ho; [by apply elem_of_nil in Ho|].
  rewrite fmap_cons, NoDup_cons in Hnd. destruct Hnd as [Hfresh Hnd].
  simpl. apply elem_of_cons in Ho as [->|Ho].
  - rewrite store_all_other by done. by rewrite lookup_insert_eq.
  - by apply IH.
Qed.

(** Storing, each under its name, the overlays of a mapping whose keys are
    the names, in any order, gives the mapping back. *)
Lemma store_all_values (m : gmap string Overlay) (os : list Overlay) :
  map_Forall (λ k o, name o = k) m →
  os ≡ₚ (map_to_list m).*2 →
  store_all ∅ os = m.
Proof.
  intros Hkey Hos.
  assert (Hnames : name <$> os ≡ₚ (map_to_list m).*1).
  { rewrite Hos, <- list_fmap_compose.
    assert (name ∘ snd <$> map_to_list m = (map_to_list m).*1) as ->; [|done].
    apply list_fmap_ext. intros i [k o] Hin. simpl.
    apply (Hkey k o), elem_of_map_to_list. by eapply list_elem_of_lookup_2. }
  assert (Hnd : NoDup (name <$> os)).
  { rewrite Hnames. apply NoDup_fst_map_to_list. }
  apply map_eq. intros k. destruct (m !! k) as [o|] eqn:Hk.
  - rewrite <- (Hkey k o Hk). apply store_all_lookup; [done|].
    rewrite Hos. apply list_elem_of_fmap. exists (k, o).
    split; [done|]. by apply elem_of_map_to_list.
  - rewrite store_all_other; [done|].
    rewrite Hnames. intros ([k' o] & -> & Hin)%list_elem_of_fmap.
    apply elem_of_map_to_list in Hin. simpl in Hk. congruence.
Qed.

(** [read] stores every overlay under its name: a catalog whose keys are
    the names of its overlays stays one, however the call ends. *)
Lemma read_loop_keys_are_names (elems : list Element) (self : DbBase) :
  map_Forall (λ k o, name o = k) (overlays self) →
  map_Forall (λ k o, name o = k) (overlays (read_loop elems self).2).
Proof.
  revert self. induction elems as [|e elems IH]; intros self Hself; [done|].
  simpl. destruct (of_xml e) as [ovl|err]; [|done].
  apply IH. simpl. by apply map_Forall_insert_2.
Qed.

Lemma read_keys_are_names (text origin : string) (self : DbBase) :
  map_Forall (λ k o, name o = k) (overlays self) →
  map_Forall (λ k o, name o = k) (overlays (read text origin self).2).
Proof.
  intros Hself. unfold read. destruct (fromstring text) as [[]|]; [done..|].
  by apply read_loop_keys_are_names.
Qed.

(** The two searches of [read] together find every child once, when every
    child is an [overlay] or a [repo]. *)
Lemma findall_overlay_repo (doc : Element) :
  Forall (λ c, tag c = "overlay" ∨ tag c = "repo") (children doc) →
  findall "overlay" doc ++ findall "repo" doc ≡ₚ children doc.
Proof.
  unfold findall. induction 1 as [|c cs [Hc|Hc] _ IH]; [done|..].
  - rewrite filter_cons_True by done.
    rewrite filter_cons_False by (rewrite Hc; discriminate).
    simpl. by rewrite IH.
  - rewrite filter_cons_False by (rewrite Hc; discriminate).
    rewrite filter_cons_True by done.
    by rewrite <- Permutation_middle, IH.
Qed.

End dbbase_facts.

(** ** The claims about catalogs *)

Section dbbase_claims.
Import xml overlay dbbase.
Context `{!HashOrder} `{!xml.Lib} `{!overlay.Methods}.
Local Open Scope list_scope.

(** A successful [write] leaves the declaration and the serialised tree
    under the path. *)
Lemma write_Ok open_w path (self : DbBase) (fs fs' : files) :
  write open_w path self fs = (Ok (), fs') →
  fs' = <[path := (xml_declaration ++ tostring (write_tree self))%string]> fs.
Proof. unfold write. destruct (open_w path); [|done]. by intros [= <-]. Qed.

(** Loading one file that exists into a new catalog is [read] on its
    content. *)
Lemma __init___one_file (c : class) path content (fs : files) :
  fs !! path = Some content →
  __init__ c [path] fs
  = match read content path {| __class__ := c; paths := [path]; overlays := ∅ |} with
    | (Ok _, self) => Ok self
    | (Raise e, _) => Raise e
    end.
Proof.
  intros Hp. unfold __init__. simpl.
  rewrite bool_decide_eq_true_2 by (by rewrite Hp).
  unfold read_file. rewrite Hp. by destruct (read _ _ _) as [[?|?] ?].
Qed.

Lemma values_elem_of (m : gmap string Overlay) (o : Overlay) :
  o ∈ values m → ∃ k, m !! k = Some o.
Proof.
  rewrite values_perm. intros ([k o'] & -> & Hin)%list_elem_of_fmap.
  exists k. by apply elem_of_map_to_list.
Qed.

(** What [read] finds in a document whose children are the written
    elements, up to what the constructor of [Overlay] does not look at. *)
Lemma written_children_accepted (vs : list Overlay) (kids : list Element) :
  Forall (λ o, of_xml (to_xml o) = Ok o
               ∧ (tag (to_xml o) = "overlay" ∨ tag (to_xml o) = "repo")) vs →
  Forall2 (λ k k', tag k' = tag k ∧ of_xml k' = of_xml k) (to_xml <$> vs) kids →
  Forall (λ c, tag c = "overlay" ∨ tag c = "repo") kids
  ∧ Forall (λ e, is_Some (accepted e)) kids
  ∧ omap accepted kids = vs.
Proof.
  intros Hvs. revert kids. induction Hvs as [|o vs [Hinv Htag] _ IH]; intros kids Hk.
  - apply Forall2_nil_inv_l in Hk as ->. done.
  - rewrite fmap_cons in Hk.
    apply Forall2_cons_inv_l in Hk as (k & kids' & [Hkt Hko] & Hrest & ->).
    destruct (IH _ Hrest) as (IH1 & IH2 & IH3).
    assert (Hacc : accepted k = Some o).
    { unfold accepted. by rewrite Hko, Hinv. }
    split; [constructor; [by rewrite Hkt|done]|].
    split; [constructor; [by rewrite Hacc|done]|].
    rewrite <- IH3 at 1.
    change (omap accepted (k :: kids'))
      with (match accepted k with
            | Some y => y :: omap accepted kids'
            | None => omap accepted kids'
            end).
    by rewrite Hacc.
Qed.


(** On the base class the hint is abstract, and that is what stops [read]
    when the parser raises [ExpatError]. *)
Lemma read_ill_formed_DbBase (self : DbBase) (text origin : string) (error : ExpatError) :
  fromstring text = inl (raised_ExpatError error) →
  hint_override (__class__ self) = None →
  read text origin self
  = (Raise (NotImplementedError
              ("Method " ++ dquote ++ __name__ (__class__ self)
               ++ "._broken_catalog_hint" ++ dquote ++ " not implemented")%string),
     self).
Proof. intros Hp Hh. unfold read, _broken_catalog_hint. by rewrite Hp, Hh. Qed.

(** The handler of [read] names [ExpatError]; the [ParseError] of a later
    ElementTree is not one and leaves [read] as it came. *)
Lemma read_ParseError (self : DbBase) (text origin message : string) :
  fromstring text = inl (raised_ParseError message) →
  read text origin self = (Raise (ParseError message), self).
Proof. intros Hp. unfold read. by rewrite Hp. Qed.


End dbbase_claims.

(** ** The API *)

Section api_facts.
Import xml overlay dbbase db api.
Context {world : Type} `{!Db world} `{!HashOrder} `{!xml.Lib} `{!overlay.Methods}.
Implicit Types (self : LaymanAPI (world := world)) (l : sync_lists) (id : string).
Local Open Scope list_scope.


Lemma no_entry_no_entries id : no_entry id no_entries.
Proof. repeat split; apply not_elem_of_nil. Qed.

Lemma no_entry_add_fatal x id m l :
  x ≠ id → no_entry x l → no_entry x (add_fatal (id, m) l).
Proof.
  intros Hx (Hf & Hw & Hs). repeat split; [|done..].
  unfold fatal_ids. simpl. rewrite fmap_app, elem_of_app. cbn.
  rewrite list_elem_of_singleton. by intros [?|?].
Qed.

Lemma no_entry_add_success x id m l :
  x ≠ id → no_entry x l → no_entry x (add_success (id, m) l).
Proof.
  intros Hx (Hf & Hw & Hs). repeat split; [done..|].
  unfold success_ids. simpl. rewrite fmap_app, elem_of_app. cbn.
  rewrite list_elem_of_singleton. by intros [?|?].
Qed.

Lemma no_entry_add_warning x w l :
  x ≠ warning_id w → no_entry x l → no_entry x (add_warning w l).
Proof.
  intros Hx (Hf & Hw & Hs). repeat split; [done| |done].
  unfold warning_ids. simpl. rewrite fmap_app, elem_of_app. cbn.
  rewrite list_elem_of_singleton. by intros [?|?].
Qed.

Lemma check_source_no_entry x id odb ordb l l' :
  x ≠ id → check_source id odb ordb l = Ok l' → no_entry x l → no_entry x l'.
Proof.
  intros Hx. unfold check_source.
  destruct (first_source odb) as [s0|]; simpl; [|done].
  case_match.
  - destruct (set_of _) as [|v [|v' vs]]; intros [= <-];
      by apply no_entry_add_warning.
  - by intros [= <-].
Qed.

(** A round of [sync] does not replace the installed catalog. *)
Lemma sync_step_installed_db id l self :
  _installed_db (sync_step id l self).2 = _installed_db self.
Proof. unfold sync_step. repeat (case_match; simpl; try done). Qed.

(** A round of [sync] adds entries for its own id only. *)
Lemma sync_step_no_entry x id l self :
  x ≠ id → no_entry x l → no_entry x (sync_step id l self).1.2.
Proof.
  intros Hx Hl. unfold sync_step.
  destruct (select id (_installed_db self)) as [odb|e].
  2:{ by destruct (isinstance _ _). }
  set (checked := match select id (_available_db self) with
                  | Ok ordb => _ | Raise e => _ end).
  assert (Hc : ∀ l', checked = Ok l' → no_entry x l').
  { subst checked. intros l'. destruct (select id (_available_db self)) as [ordb|e].
    - intros Hc. by eapply check_source_no_entry.
    - destruct (isinstance _ _); [|done]. intros [= <-].
      by apply no_entry_add_warning. }
  destruct checked as [l1|e]; [|done].
  specialize (Hc l1 eq_refl).
  destruct (DB_sync _ _ _ _) as [[?|e] w]; simpl.
  - by apply no_entry_add_success.
  - by apply no_entry_add_fatal.
Qed.

(** A round of [sync] for an id that the installed catalog does not have
    ends where [select] does: nothing is recorded and nothing behind the
    catalogs is touched. *)
Lemma sync_step_not_installed id l self :
  overlays (_installed_db self) !! id = None →
  sync_step id l self = (Raise (NameError "message"), l, self).
Proof. intros Hid. unfold sync_step. by rewrite select_absent. Qed.

(** The same when the available catalog does not have the id: the handler
    that would record the warning is never entered. *)
Lemma sync_step_not_available id l self odb :
  overlays (_installed_db self) !! id = Some odb →
  overlays (_available_db self) !! id = None →
  sync_step id l self = (Raise (NameError "message"), l, self).
Proof.
  intros Hi Ha. unfold sync_step.
  rewrite (select_present _ _ _ Hi), (select_absent _ _ Ha). done.
Qed.

Lemma sync_loop_no_entry x repos l self :
  overlays (_installed_db self) !! x = None →
  no_entry x l → no_entry x (sync_loop repos l self).1.2.
Proof.
  revert l self. induction repos as [|id repos IH]; intros l self Hx Hl; [done|].
  simpl. destruct (decide (x = id)) as [<-|Hne].
  - by rewrite sync_step_not_installed.
  - pose proof (sync_step_no_entry x id l self Hne Hl) as Hstep.
    pose proof (sync_step_installed_db id l self) as Hdb.
    destruct (sync_step id l self) as [[[?|e] l1] self1]; simpl in *; [|done].
    apply IH; [by rewrite Hdb|done].
Qed.

(** The two early branches of the loop of [add_repos] end the loop. *)
Lemma add_repos_loop_installed id repos results self :
  is_installed id self = true →
  add_repos_loop (id :: repos) results self = (Ok (results ++ [true]), self).
Proof. intros Hi. simpl. unfold bindM, eval. simpl. by rewrite Hi. Qed.

Lemma add_repos_loop_unknown id repos results self :
  is_installed id self = false → is_repo id self = false →
  add_repos_loop (id :: repos) results self
  = (Ok (results ++ [false]), _error 1 (UNKNOWN_REPO_ID id) self).
Proof.
  intros Hi Hk. simpl. unfold bindM, eval. simpl. rewrite Hi. simpl.
  by rewrite Hk.
Qed.

(** And so do the two of [delete_repos]. *)
Lemma delete_repos_loop_not_installed id repos results self :
  is_installed id self = false →
  delete_repos_loop (id :: repos) results self = (Ok (results ++ [true]), self).
Proof. intros Hi. simpl. unfold bindM, eval. simpl. by rewrite Hi. Qed.

Lemma delete_repos_loop_unknown id repos results self :
  is_installed id self = true → is_repo id self = false →
  delete_repos_loop (id :: repos) results self
  = (Ok (results ++ [false]), _error 1 (UNKNOWN_REPO_ID id) self).
Proof.
  intros Hi Hk. simpl. unfold bindM, eval. simpl. rewrite Hi. simpl.
  by rewrite Hk.
Qed.

(** Anything but a [str] or a list makes [_check_repo_type] raise. *)
Lemma _check_repo_type_other (repos : arg) (caller : string) :
  (∀ s, repos ≠ Str s) → (∀ ids, repos ≠ List ids) →
  _check_repo_type repos caller = Raise (NameError "self").
Proof.
  destruct repos as [s|u|ids| |]; intros Hs Hl; try done;
    [by destruct (Hs s)|by destruct (Hl ids)].
Qed.

(** An exception in the first round of the loop is the outcome of [sync]. *)
Lemma sync_first_round_raises id repos e l self self' output_results :
  sync_step id no_entries self = (Raise e, l, self') →
  sync (List (id :: repos)) output_results self = (Raise e, self').
Proof. intros Hs. unfold sync, bindM, eval. simpl. by rewrite Hs. Qed.

(** With [output_results] off, [sync] returns [True] whenever its loop comes
    to an end, and stores the lists. *)
Lemma sync_quiet_returns_True repos l self self' :
  sync_loop repos no_entries self = (Ok (), l, self') →
  sync (List repos) false self = (Ok true, set_sync_results (lists l) self').
Proof. intros Hl. unfold sync, bindM, eval, ret. simpl. by rewrite Hl. Qed.

(** With [output_results] on and a fatal entry, [sync] returns [False] and
    [sync_results] stays as it was. *)
Lemma report_warnings_sync_results ws self :
  sync_results (report_warnings ws self).2 = sync_results self.
Proof.
  revert self. induction ws as [|[id m|id f a] ws IH]; intros self; simpl; [done| |done].
  unfold bindM. simpl.
  specialize (IH (emit [warn (m ++ nl)%string 2] self)).
  by destruct (report_warnings ws _) as [[?|e] s'].
Qed.

Lemma report_sync_results l self :
  sync_results (report l self).2 = sync_results self.
Proof.
  unfold report, bindM.
  assert (sync_results (report_success l self).2 = sync_results self) as Hs1.
  { unfold report_success. by destruct (success l). }
  destruct (report_success l self) as [[?|e] s1]; simpl in Hs1; [|done].
  assert (sync_results (report_all_warnings l s1).2 = sync_results s1) as Hs2.
  { unfold report_all_warnings. destruct (warnings l) as [|w ws]; [done|].
    unfold bindM. simpl. by rewrite (report_warnings_sync_results (w :: ws)). }
  destruct (report_all_warnings l s1) as [[?|e] s2]; simpl in *; [|congruence].
  unfold report_fatals. destruct (fatals l); simpl; congruence.
Qed.

Lemma report_fatal l self r self' :
  fatals l ≠ [] → report l self = (Ok r, self') → r = true.
Proof.
  intros Hf. unfold report, bindM.
  destruct (report_success l self) as [[?|e] s1]; [|done].
  destruct (report_all_warnings l s1) as [[?|e] s2]; [|done].
  unfold report_fatals. destruct (fatals l); [done|]. by intros [= <- _].
Qed.

Lemma sync_fatal_keeps_sync_results repos l self self' :
  sync_loop repos no_entries self = (Ok (), l, self') →
  fatals l ≠ [] →
  ∀ r self'', sync (List repos) true self = (Ok r, self'') →
    r = false ∧ sync_results self'' = sync_results self'.
Proof.
  intros Hl Hf r self''. unfold sync, bindM, eval, ret. simpl. rewrite Hl.
  pose proof (report_sync_results l self') as Hs.
  destruct (report l self') as [[b|e] s1] eqn:Hr; [|done].
  rewrite (report_fatal _ _ _ _ Hf Hr). intros [= <- <-]. done.
Qed.

Lemma report_no_fatal l self r self' :
  fatals l = [] → report l self = (Ok r, self') → r = false.
Proof.
  intros Hf. unfold report, bindM.
  destruct (report_success l self) as [[?|e] s1]; [|done].
  destruct (report_all_warnings l s1) as [[?|e] s2]; [|done].
  unfold report_fatals. rewrite Hf. by intros [= <- _].
Qed.

(** When [sync] returns, with [output_results] on, what it returns is whether
    the fatal list is empty; and when it returns [True], with [output_results]
    on or off, [sync_results] holds the lists of the call. *)
Lemma sync_verbose_result repos l self self' r self'' :
  sync_loop repos no_entries self = (Ok (), l, self') →
  sync (List repos) true self = (Ok r, self'') →
  r = true ↔ fatals l = [].
Proof.
  intros Hl. unfold sync, bindM, eval, ret. simpl. rewrite Hl.
  destruct (report l self') as [[b|e] s1] eqn:Hr; [|done].
  destruct (fatals l) as [|f fs] eqn:Hf.
  - rewrite (report_no_fatal _ _ _ _ Hf Hr). by intros [= <- _].
  - rewrite (report_fatal l self' b s1) by (done || by rewrite Hf).
    by intros [= <- _].
Qed.

Lemma sync_True_stores_lists repos l self self' self'' output_results :
  sync_loop repos no_entries self = (Ok (), l, self') →
  sync (List repos) output_results self = (Ok true, self'') →
  sync_results self'' = lists l.
Proof.
  intros Hl. unfold sync, bindM, eval, ret. simpl. rewrite Hl.
  destruct output_results.
  - destruct (report l self') as [[[]|e] s1]; [done| |done]. by intros [= <-].
  - by intros [= <-].
Qed.

End api_facts.

(** ** The claims about the API *)

Section api_claims.
Import xml overlay dbbase db api.
Context {world : Type} `{!Db world} `{!HashOrder} `{!xml.Lib} `{!overlay.Methods}.
Implicit Types (self : LaymanAPI (world := world)) (l : sync_lists) (id : string).
Local Open Scope list_scope.

(** C4 (amended).  For an id of a [sync] batch that the installed catalog
    does not have, nothing is recorded in the fatal list, nor in the other
    two: the round for that id leaves the three lists and everything behind
    the catalogs as they were, and whatever the batch and however its loop
    ends, none of the lists has an entry for that id. *)
Theorem C4_sync_not_installed_leaves_no_entry repos self id :
  overlays (_installed_db self) !! id = None →
  (∀ l, (sync_step id l self).1.2 = l
        ∧ the_world (sync_step id l self).2 = the_world self)
  ∧ no_entry id (sync_loop repos no_entries self).1.2.
Proof.
  intros Hid. split.
  - intros l. by rewrite sync_step_not_installed.
  - apply sync_loop_no_entry; [done|]. apply no_entry_no_entries.
Qed.

(** Each of the five batch calls does on a [str] what it does on the list
    that holds just that string: same outcome, same object after the
    call. *)
Lemma str_is_one_element_list (x : string) (output_results : bool) self :
  add_repos (Str x) self = add_repos (List [x]) self
  ∧ delete_repos (Str x) self = delete_repos (List [x]) self
  ∧ sync (Str x) output_results self = sync (List [x]) output_results self
  ∧ get_all_info (Str x) self = get_all_info (List [x]) self
  ∧ get_info_str (Str x) self = get_info_str (List [x]) self.
Proof.
  assert (Hn : ∀ caller, _check_repo_type (Str x) caller
                         = _check_repo_type (List [x]) caller) by done.
  unfold add_repos, delete_repos, sync, get_all_info, get_info_str.
  by rewrite !Hn.
Qed.

(** Each of the five batch calls ends on a [unicode] string as on any other
    unsupported type: in the [NameError] of [_check_repo_type], with the
    object as it was. *)
Lemma unicode_is_unsupported (x : string) (output_results : bool) self :
  add_repos (Unicode x) self = (Raise (NameError "self"), self)
  ∧ delete_repos (Unicode x) self = (Raise (NameError "self"), self)
  ∧ sync (Unicode x) output_results self = (Raise (NameError "self"), self)
  ∧ get_all_info (Unicode x) self = (Raise (NameError "self"), self)
  ∧ get_info_str (Unicode x) self = (Raise (NameError "self"), self).
Proof.
  assert (Hn : ∀ caller, _check_repo_type (Unicode x) caller = Raise (NameError "self"))
    by (intros; by apply _check_repo_type_other).
  unfold add_repos, delete_repos, sync, get_all_info, get_info_str, bindM, eval.
  by rewrite !Hn.
Qed.

End api_claims.

Section api_claims_on_fixture.
Import xml overlay dbbase db api fixture.
Local Existing Instances order xml_lib methods database.
Local Open Scope list_scope.

(** [an_api] is the object that the constructor builds on [a_world]. *)
Lemma an_api_is_built : __init__ false true a_world = (Ok an_api, a_world).
Proof. vm_compute. reflexivity. Qed.

(** C1.  [add_repos] on wrobel (installed) and wrobel-stable (on offer, not
    installed): the loop ends after the first id with one outcome for two
    ids, the call returns [True], and wrobel-stable, which the call installs
    when it comes alone, is not installed.  The same after an id that is not
    on offer, and in [delete_repos] after an id that is not installed. *)
Theorem C1_batch_ends_at_first_early_outcome :
  add_repos_loop ["wrobel"; "wrobel-stable"] [] an_api = (Ok [true], an_api)
  ∧ add_repos (List ["wrobel"; "wrobel-stable"]) an_api = (Ok true, an_api)
  ∧ (add_repos_loop ["ghost"; "wrobel-stable"] [] an_api).1 = Ok [false]
  ∧ is_installed "wrobel-stable"
      (add_repos_loop ["ghost"; "wrobel-stable"] [] an_api).2 = false
  ∧ (add_repos_loop ["wrobel-stable"] [] an_api).1 = Ok [true]
  ∧ is_installed "wrobel-stable" (add_repos_loop ["wrobel-stable"] [] an_api).2 = true
  ∧ delete_repos_loop ["wrobel-stable"; "wrobel"] [] an_api = (Ok [true], an_api)
  ∧ (delete_repos_loop ["wrobel"] [] an_api).1 = Ok [true]
  ∧ is_installed "wrobel" (delete_repos_loop ["wrobel"] [] an_api).2 = false.
Proof.
  split; [by apply add_repos_loop_installed|].
  split.
  { unfold add_repos, bindM, eval. simpl _check_repo_type. cbv iota beta.
    by rewrite add_repos_loop_installed. }
  split; [by rewrite add_repos_loop_unknown|].
  split; [by rewrite add_repos_loop_unknown|].
  split; [by vm_compute|].
  split; [by vm_compute|].
  split; [by apply delete_repos_loop_not_installed|].
  split; by vm_compute.
Qed.

(** C3.  With [output_results] off, [sync] on down, whose source cannot be
    reached, returns [True] though the fatal list has an entry.  With
    [output_results] on, [sync] on moved, whose source has changed, ends in
    [ValueError] though the fatal list is empty: the warning is a triple,
    which the report cannot unpack. *)
Theorem C3_sync_result_is_not_fatals_empty :
  ((sync_loop ["down"] no_entries an_api).1.1 = Ok ()
   ∧ fatal_ids (sync_loop ["down"] no_entries an_api).1.2 = ["down"]
   ∧ (sync (List ["down"]) false an_api).1 = Ok true
   ∧ sync_results (sync (List ["down"]) false an_api).2
     = lists (sync_loop ["down"] no_entries an_api).1.2)
  ∧ ((sync_loop ["moved"] no_entries an_api).1.1 = Ok ()
     ∧ fatals (sync_loop ["moved"] no_entries an_api).1.2 = []
     ∧ warning_ids (sync_loop ["moved"] no_entries an_api).1.2 = ["moved"]
     ∧ (sync (List ["moved"]) true an_api).1
       = Raise (ValueError "too many values to unpack")).
Proof. repeat split; vm_compute; reflexivity. Qed.

(** C5.  [sync] on gone, which is installed and which the remote lists no
    longer have: the call ends in [NameError] and leaves the object as it
    was, so no warning is recorded and the adapter is not called. *)
Theorem C5_sync_unavailable_raises_NameError :
  is_Some (overlays (_installed_db an_api) !! "gone")
  ∧ overlays (_available_db an_api) !! "gone" = None
  ∧ sync_step "gone" no_entries an_api
    = (Raise (NameError "message"), no_entries, an_api)
  ∧ sync (List ["gone"]) true an_api = (Raise (NameError "message"), an_api)
  ∧ adapter_calls (the_world (sync (List ["gone"]) true an_api).2) = [].
Proof.
  assert (Hi : overlays (_installed_db an_api) !! "gone"
               = Some (an_overlay "gone" [rsync "rsync://a.example/gone"]))
    by by vm_compute.
  assert (Ha : overlays (_available_db an_api) !! "gone" = None) by by vm_compute.
  pose proof (sync_step_not_available "gone" no_entries an_api _ Hi Ha) as Hstep.
  split; [by rewrite Hi|]. split; [done|]. split; [done|].
  rewrite (sync_first_round_raises _ _ _ _ _ _ true Hstep).
  split; [done|]. by vm_compute.
Qed.

(** C6.  [select] on ghost, which the catalog does not have, ends in
    [NameError], not in [UnknownOverlayException]. *)
Theorem C6_select_absent_raises_NameError :
  overlays a_catalog !! "ghost" = None
  ∧ select "ghost" a_catalog = Raise (NameError "message")
  ∧ ∀ msg, select "ghost" a_catalog ≠ Raise (UnknownOverlayException msg).
Proof.
  assert (Hg : overlays a_catalog !! "ghost" = None) by by vm_compute.
  split; [done|]. rewrite (select_absent _ _ Hg). by split.
Qed.

(** C8.  Each of the five batch calls on the integer 5 ends in [NameError]
    and leaves the object as it was: nothing is returned, and nothing is
    added to the error queue. *)
Theorem C8_unsupported_input_raises_NameError :
  add_repos (Int 5) an_api = (Raise (NameError "self"), an_api)
  ∧ delete_repos (Int 5) an_api = (Raise (NameError "self"), an_api)
  ∧ sync (Int 5) true an_api = (Raise (NameError "self"), an_api)
  ∧ get_all_info (Int 5) an_api = (Raise (NameError "self"), an_api)
  ∧ get_info_str (Int 5) an_api = (Raise (NameError "self"), an_api)
  ∧ _error_messages an_api = [].
Proof.
  assert (Hn : ∀ caller, _check_repo_type (Int 5) caller = Raise (NameError "self"))
    by (intros; by apply _check_repo_type_other).
  unfold add_repos, delete_repos, sync, get_all_info, get_info_str, bindM, eval.
  rewrite !Hn. done.
Qed.

(** C10.  wrobel is an id of the installed catalog, whose names are
    [unicode] strings.  Each of the five batch calls on the list that holds
    it runs, and [sync] calls the adapter for it.  On the [unicode] string
    itself each of the five ends in [NameError] and leaves the object as it
    was: [isinstance(repos, str)] is false of it, so it is not made the
    list of one string as a [str] is. *)
Theorem C10_unicode_string_is_not_one_element_list :
  "wrobel" ∈ _installed_ids an_api
  ∧ (sync (Unicode "wrobel") true an_api = (Raise (NameError "self"), an_api)
     ∧ (sync (List ["wrobel"]) true an_api).1 = Ok true
     ∧ adapter_calls (the_world (sync (List ["wrobel"]) true an_api).2) = ["wrobel"])
  ∧ (add_repos (Unicode "wrobel") an_api = (Raise (NameError "self"), an_api)
     ∧ (add_repos (List ["wrobel"]) an_api).1 = Ok true)
  ∧ (delete_repos (Unicode "wrobel") an_api = (Raise (NameError "self"), an_api)
     ∧ (delete_repos (List ["wrobel"]) an_api).1 = Ok true)
  ∧ (get_all_info (Unicode "wrobel") an_api = (Raise (NameError "self"), an_api)
     ∧ (if (get_all_info (List ["wrobel"]) an_api).1 is Ok _ then true else false)
       = true)
  ∧ (get_info_str (Unicode "wrobel") an_api = (Raise (NameError "self"), an_api)
     ∧ (if (get_info_str (List ["wrobel"]) an_api).1 is Ok _ then true else false)
       = true)
  ∧ sync (Str "wrobel") true an_api = sync (List ["wrobel"]) true an_api.
Proof.
  destruct (unicode_is_unsupported "wrobel" true an_api) as (Ha & Hd & Hs & Hg & Hi).
  split; [by apply (bool_decide_unpack _); vm_compute|].
  split; [split; [exact Hs|split; vm_compute; reflexivity]|].
  split; [split; [exact Ha|vm_compute; reflexivity]|].
  split; [split; [exact Hd|vm_compute; reflexivity]|].
  split; [split; [exact Hg|vm_compute; reflexivity]|].
  split; [split; [exact Hi|vm_compute; reflexivity]|].
  apply str_is_one_element_list.
Qed.

(** C9.  [sync] on down with [output_results] on: the loop comes to its end
    with a fatal entry for down, the call returns [False], and
    [sync_results] is still the empty list of [__init__], not the lists of
    the call. *)
Theorem C9_sync_with_fatals_keeps_old_sync_results :
  (sync_loop ["down"] no_entries an_api).1.1 = Ok ()
  ∧ fatal_ids (sync_loop ["down"] no_entries an_api).1.2 = ["down"]
  ∧ (sync (List ["down"]) true an_api).1 = Ok false
  ∧ sync_results (sync (List ["down"]) true an_api).2 = empty_list
  ∧ sync_results (sync (List ["down"]) true an_api).2
    ≠ lists (sync_loop ["down"] no_entries an_api).1.2.
Proof.
  assert (Hs : sync_results (sync (List ["down"]) true an_api).2 = empty_list)
    by (vm_compute; reflexivity).
  split; [vm_compute; reflexivity|]. split; [vm_compute; reflexivity|].
  split; [vm_compute; reflexivity|]. split; [exact Hs|].
  rewrite Hs. discriminate.
Qed.

(** C4 as stated does not hold.  [sync] on ghost, which is not installed, then
    wrobel: no fatal entry for ghost, and the batch ends there, before the
    adapter is called for wrobel. *)
Lemma C4_counterexample :
  overlays (_installed_db an_api) !! "ghost" = None
  ∧ sync_loop ["ghost"; "wrobel"] no_entries an_api
    = (Raise (NameError "message"), no_entries, an_api)
  ∧ ¬ (∃ m, ("ghost", m) ∈ fatals (sync_loop ["ghost"; "wrobel"] no_entries an_api).1.2)
  ∧ adapter_calls (the_world (sync_loop ["ghost"; "wrobel"] no_entries an_api).2) = []
  ∧ adapter_calls (the_world (sync_loop ["wrobel"] no_entries an_api).2) = ["wrobel"].
Proof.
  assert (Hg : overlays (_installed_db an_api) !! "ghost" = None) by by vm_compute.
  assert (Hl : sync_loop ["ghost"; "wrobel"] no_entries an_api
               = (Raise (NameError "message"), no_entries, an_api)).
  { simpl. by rewrite sync_step_not_installed. }
  split; [done|]. split; [done|]. rewrite Hl. simpl.
  split; [by intros [m Hm%elem_of_nil]|]. split; [done|]. by vm_compute.
Qed.

(** C4 (amended) on ghost, in a batch with two installed ids around it. *)
Lemma C4_witness :
  overlays (_installed_db an_api) !! "ghost" = None
  ∧ ((∀ l, (sync_step "ghost" l an_api).1.2 = l
           ∧ the_world (sync_step "ghost" l an_api).2 = the_world an_api)
     ∧ no_entry "ghost" (sync_loop ["wrobel"; "ghost"; "down"] no_entries an_api).1.2).
Proof.
  assert (Hg : overlays (_installed_db an_api) !! "ghost" = None)
    by (vm_compute; reflexivity).
  split; [exact Hg|].
  exact (C4_sync_not_installed_leaves_no_entry
           ["wrobel"; "ghost"; "down"] an_api "ghost" Hg).
Defined.

End api_claims_on_fixture.

Section dbbase_claims_on_fixture.
Import xml overlay dbbase fixture.
Local Existing Instances order xml_lib methods.
Local Open Scope list_scope.


(** The scenario of section 8 of the specification. *)
Example select_wrobel_stable :
  (do o <- select "wrobel-stable" a_catalog; Ok (source_uris o))
  = Ok ["rsync://gunnarwrobel.de/wrobel-stable"]%string.
Proof. rewrite (select_present a_catalog "wrobel-stable" wrobel_stable); done. Qed.

Example list_ids_sorted :
  list_ids a_catalog = ["wrobel"; "wrobel-stable"]%string.
Proof. vm_compute. reflexivity. Qed.



End dbbase_claims_on_fixture.

(** ** More about catalogs *)

Section dbbase_more.
Import xml overlay dbbase.
Context `{!HashOrder} `{!xml.Lib} `{!overlay.Methods}.
Local Open Scope list_scope.

Lemma __ne___false (a b : Overlay) : overlay.__ne__ a b = false ↔ a = b.
Proof.
  unfold overlay.__ne__. rewrite bool_decide_eq_false. split.
  - intros Hn. by destruct (decide (a = b)).
  - by intros -> ?.
Qed.

(** What each outcome of the loop of [__eq__] tells about the keys it went
    through. *)
Lemma __eq___loop_outcome (ks : list string) (self other : DbBase) :
  match __eq___loop ks self other with
  | Ok true =>
      Forall (λ k, is_Some (overlays self !! k)
                   ∧ overlays self !! k = overlays other !! k) ks
  | Ok false =>
      ∃ k a b, k ∈ ks ∧ overlays self !! k = Some a
               ∧ overlays other !! k = Some b ∧ a ≠ b
  | Raise e =>
      ∃ k, e = KeyError k ∧ k ∈ ks
           ∧ (overlays self !! k = None ∨ overlays other !! k = None)
  end.
Proof.
  induction ks as [|k ks IH]; simpl; [done|].
  unfold getitem.
  destruct (overlays self !! k) as [a|] eqn:Ha; simpl;
    [|exists k; split; [done|split; [left|by left]]].
  destruct (overlays other !! k) as [b|] eqn:Hb; simpl;
    [|exists k; split; [done|split; [left|by right]]].
  destruct (overlay.__ne__ a b) eqn:Hne.
  - exists k, a, b. split; [left|]. split; [done|]. split; [done|].
    intros Hab. apply __ne___false in Hab. congruence.
  - apply __ne___false in Hne as <-.
    destruct (__eq___loop ks self other) as [[]|e].
    + constructor; [|done]. by rewrite Ha, Hb.
    + destruct IH as (k' & a' & b' & ? & ?). exists k', a', b'. split; [by right|done].
    + destruct IH as (k' & -> & ? & ?). exists k'. split; [done|]. split; [by right|done].
Qed.

Lemma elem_of_compared_keys (self other : DbBase) (k : string) :
  k ∈ set_of (keys (overlays self) ++ keys (overlays other))
  ↔ is_Some (overlays self !! k) ∨ is_Some (overlays other !! k).
Proof. by rewrite elem_of_set_of, elem_of_app, !elem_of_keys. Qed.

Lemma __eq___True_same (self other : DbBase) :
  __eq__ self other = Ok true → overlays self = overlays other.
Proof.
  intros Ht. unfold __eq__ in Ht.
  pose proof (__eq___loop_outcome
                (set_of (keys (overlays self) ++ keys (overlays other)))
                self other) as Hout.
  rewrite Ht in Hout. rewrite Forall_forall in Hout.
  apply map_eq. intros k.
  destruct (overlays self !! k) as [a|] eqn:Ha.
  - destruct (Hout k) as [_ Hk]; [apply elem_of_compared_keys; left; by rewrite Ha|].
    congruence.
  - destruct (overlays other !! k) as [b|] eqn:Hb; [|done].
    destruct (Hout k) as [[? Hk] _];
      [apply elem_of_compared_keys; right; by rewrite Hb|congruence].
Qed.

(** X1.  [__eq__] returns [True] exactly when the two catalogs have the same
    mapping, and [__ne__] returns [False] exactly then, whatever the order
    in which the keys are gone through. *)
Theorem X1_eq_True_iff_same_mapping (self other : DbBase) :
  (__eq__ self other = Ok true ↔ overlays self = overlays other)
  ∧ (__ne__ self other = Ok false ↔ overlays self = overlays other).
Proof.
  assert (Heq : __eq__ self other = Ok true ↔ overlays self = overlays other).
  { split; [apply __eq___True_same|apply __eq___same]. }
  split; [done|]. rewrite <- Heq. unfold __ne__.
  destruct (__eq__ self other) as [[]|e]; simpl; split; congruence.
Qed.

(** X2.  The other outcomes of [__eq__].  It returns [False] only on a key
    that both catalogs have, with different overlays.  It raises only
    [KeyError], on a key that one catalog has and the other has not; so two
    catalogs with different names are never compared equal, and are not
    always compared unequal either. *)
Theorem X2_eq_False_or_KeyError (self other : DbBase) :
  match __eq__ self other with
  | Ok true => overlays self = overlays other
  | Ok false =>
      ∃ k a b, overlays self !! k = Some a ∧ overlays other !! k = Some b ∧ a ≠ b
  | Raise e =>
      ∃ k, e = KeyError k
           ∧ ((overlays self !! k = None ∧ is_Some (overlays other !! k))
              ∨ (is_Some (overlays self !! k) ∧ overlays other !! k = None))
  end.
Proof.
  pose proof (__eq___loop_outcome
                (set_of (keys (overlays self) ++ keys (overlays other)))
                self other) as Hout.
  destruct (__eq__ self other) as [[]|e] eqn:Hloop; unfold __eq__ in Hloop;
    rewrite Hloop in Hout.
  - by apply __eq___True_same.
  - destruct Hout as (k & a & b & _ & ?). by exists k, a, b.
  - destruct Hout as (k & -> & Hk & Hnone). exists k. split; [done|].
    apply elem_of_compared_keys in Hk.
    destruct Hnone as [Hs|Ho]; [left|right].
    + split; [done|]. destruct Hk as [Hk|Hk]; [|done]. rewrite Hs in Hk. by destruct Hk.
    + split; [|done]. destruct Hk as [Hk|Hk]; [done|]. rewrite Ho in Hk. by destruct Hk.
Qed.

(** The entry that the loop of [read] leaves under a name: the last overlay
    of that name that it stored, or the entry that was there. *)
Lemma store_all_last (os : list Overlay) (m : gmap string Overlay) (k : string) :
  store_all m os !! k
  = match last_named k os with Some o => Some o | None => m !! k end.
Proof.
  unfold last_named. revert m. induction os as [|o os IH]; intros m; [done|].
  simpl. rewrite IH. destruct (decide (name o = k)) as [Hk|Hk].
  - rewrite filter_cons_True by done. rewrite last_cons.
    destruct (last (filter _ os)); [done|]. by rewrite <- Hk, lookup_insert_eq.
  - rewrite filter_cons_False by done.
    destruct (last (filter _ os)); [done|]. by rewrite lookup_insert_ne.
Qed.

Lemma read_accepted (self : DbBase) (text origin : string) (doc : Element) :
  fromstring text = inr doc →
  Forall (λ e, is_Some (accepted e)) (findall "overlay" doc ++ findall "repo" doc) →
  read text origin self
  = (Ok (), set_overlays (store_all (overlays self) (found_overlays doc)) self).
Proof. intros Hp Hacc. unfold read. rewrite Hp. by apply read_loop_accepted. Qed.

(** X3.  [read] on a document whose elements the constructor accepts
    succeeds, and leaves under each name the last overlay of that name in the
    document (the [overlay] children first, then the [repo] children), or,
    when the document has none, the entry that the catalog had: entries are
    replaced whole, and no other entry is lost. *)
Theorem X3_read_last_entry_wins (self : DbBase) (text origin : string) (doc : Element) :
  fromstring text = inr doc →
  Forall (λ e, is_Some (accepted e)) (findall "overlay" doc ++ findall "repo" doc) →
  (read text origin self).1 = Ok ()
  ∧ ∀ k, overlays (read text origin self).2 !! k
         = match last_named k (found_overlays doc) with
           | Some o => Some o
           | None => overlays self !! k
           end.
Proof.
  intros Hp Hacc. rewrite (read_accepted _ _ _ _ Hp Hacc). split; [done|].
  intros k. apply store_all_last.
Qed.

(** X4.  Within one document, an entry tagged [repo] overrides an entry
    tagged [overlay] of the same name, wherever the two stand in the
    document: the [repo] children are stored after the [overlay] children. *)
Theorem X4_read_repo_overrides_overlay
    (self : DbBase) (text origin : string) (doc : Element) (k : string) (o : Overlay) :
  fromstring text = inr doc →
  Forall (λ e, is_Some (accepted e)) (findall "overlay" doc ++ findall "repo" doc) →
  last_named k (omap accepted (findall "repo" doc)) = Some o →
  overlays (read text origin self).2 !! k = Some o.
Proof.
  intros Hp Hacc Hlast. rewrite (read_accepted _ _ _ _ Hp Hacc). simpl.
  rewrite store_all_last. unfold found_overlays, last_named in *.
  by rewrite omap_app, filter_app, last_app, Hlast.
Qed.

(** X5.  [read] is not all or nothing.  When the constructor rejects an
    element, [read] ends in the exception of the constructor, and the
    overlays of the elements before it stay stored. *)
Theorem X5_read_stores_up_to_rejected_element
    (self : DbBase) (text origin : string) (doc : Element)
    (before after : list Element) (e : Element) (err : exn) :
  fromstring text = inr doc →
  findall "overlay" doc ++ findall "repo" doc = before ++ e :: after →
  Forall (λ e, is_Some (accepted e)) before →
  of_xml e = Raise err →
  read text origin self
  = (Raise err,
     set_overlays (store_all (overlays self) (omap accepted before)) self).
Proof.
  intros Hp Hfound Hbefore He. unfold read. rewrite Hp, Hfound. clear Hp Hfound.
  revert self. induction Hbefore as [|b before [o Ho] _ IH]; intros self; simpl.
  - rewrite He. by destruct self.
  - unfold accepted in Ho |- *. destruct (of_xml b) as [o'|]; [|done].
    injection Ho as ->. simpl. by rewrite IH.
Qed.

Lemma __init___loop_loads (ps : list string) (fs : files) (oss : list (list Overlay))
    (self : DbBase) :
  Forall2 (λ p os, loads fs p = Some os) ps oss →
  __init___loop ps fs self
  = (Ok (), set_overlays (store_all (overlays self) (concat oss)) self).
Proof.
  intros Hall. revert self.
  induction Hall as [|p os ps oss Hp _ IH]; intros self; simpl.
  - by destruct self.
  - unfold loads in Hp. unfold read_file.
    destruct (fs !! p) as [text|] eqn:Hfs.
    + rewrite bool_decide_eq_true_2 by done.
      destruct (fromstring text) as [|doc] eqn:Hparse; [done|].
      case_bool_decide as Hacc; [|done]. injection Hp as <-.
      rewrite (read_accepted _ _ _ _ Hparse Hacc), IH. simpl.
      unfold store_all. by rewrite foldl_app.
    + rewrite bool_decide_eq_false_2 by (by intros [? ?]).
      injection Hp as <-. by rewrite IH.
Qed.

(** X6.  [__init__] goes through its paths in order, passes over those that
    do not exist, and merges the documents of the others: under each name the
    new catalog has the last overlay of that name, in the order of the paths
    and, within a document, of [read]; a later document overrides an earlier
    one, name by name. *)
Theorem X6_init_merges_documents_in_order
    (c : class) (ps : list string) (fs : files) (oss : list (list Overlay)) :
  mapM (loads fs) ps = Some oss →
  ∃ self, __init__ c ps fs = Ok self
          ∧ __class__ self = c ∧ paths self = ps
          ∧ ∀ k, overlays self !! k = last_named k (concat oss).
Proof.
  intros Hall%mapM_Some. unfold __init__.
  rewrite (__init___loop_loads _ _ _ _ Hall). eexists. split; [done|].
  split; [done|]. split; [done|]. intros k. simpl.
  rewrite store_all_last, lookup_empty. by destruct (last_named k _).
Qed.

Lemma select_lookup (self : DbBase) (n : string) :
  select n self
  = match overlays self !! n with
    | Some o => Ok o
    | None => Raise (NameError "message")
    end.
Proof.
  destruct (overlays self !! n) eqn:Hn;
    [by apply select_present|by apply select_absent].
Qed.

(** X7.  What [read] stores can be selected.  After [read] on a document
    whose elements are accepted and have different names, [select] on the
    name of each of them returns its overlay, and [select] on any other name
    does what it did before. *)
Theorem X7_read_then_select (self : DbBase) (text origin : string) (doc : Element) :
  fromstring text = inr doc →
  Forall (λ e, is_Some (accepted e)) (findall "overlay" doc ++ findall "repo" doc) →
  NoDup (name <$> found_overlays doc) →
  (∀ o, o ∈ found_overlays doc → select (name o) (read text origin self).2 = Ok o)
  ∧ (∀ k, k ∉ name <$> found_overlays doc →
          select k (read text origin self).2 = select k self).
Proof.
  intros Hp Hacc Hnd. rewrite (read_accepted _ _ _ _ Hp Hacc). split.
  - intros o Ho. rewrite select_lookup. simpl. by rewrite store_all_lookup.
  - intros k Hk. rewrite !select_lookup. simpl. by rewrite store_all_other.
Qed.

(** X8.  [list_ids] returns the names of the catalog, each once, in
    ascending order of byte strings, and the same list whatever the order of
    the dictionary. *)
Theorem X8_list_ids_sorted_names (self : DbBase) :
  Sorted String.le (list_ids self)
  ∧ NoDup (list_ids self)
  ∧ (∀ k, k ∈ list_ids self ↔ is_Some (overlays self !! k))
  ∧ list_ids self = merge_sort String.le (map_to_list (overlays self)).*1.
Proof.
  unfold list_ids, sorted.
  assert (Hperm : merge_sort String.le (keys (overlays self)) ≡ₚ keys (overlays self))
    by apply merge_sort_Permutation.
  split; [apply Sorted_merge_sort; apply _|].
  split; [rewrite Hperm; apply NoDup_keys|].
  split; [intros k; by rewrite Hperm, elem_of_keys|].
  apply (Sorted_unique String.le).
  - apply Sorted_merge_sort; apply _.
  - apply Sorted_merge_sort; apply _.
  - by rewrite !merge_sort_Permutation, keys_perm.
Qed.

End dbbase_more.

(** ** Sorting by a key *)

Section sorted_by_facts.
Context {A : Type} (key : A → string).
Local Open Scope list_scope.

Lemma insert_by_Permutation (x : A) (l : list A) : insert_by key x l ≡ₚ x :: l.
Proof.
  induction l as [|y l IH]; simpl; [done|].
  destruct (String.leb (key x) (key y)); [done|].
  by rewrite IH, Permutation_swap.
Qed.

Lemma sorted_by_Permutation (l : list A) : sorted_by key l ≡ₚ l.
Proof.
  induction l as [|x l IH]; simpl; [done|].
  by rewrite insert_by_Permutation, IH.
Qed.

Lemma leb_false_le (s1 s2 : string) : String.leb s1 s2 = false → String.le s2 s1.
Proof.
  intros Hf. destruct (total String.le s1 s2) as [Hle|Hle]; [|done].
  unfold String.le in Hle. rewrite Hf in Hle. done.
Qed.

Lemma insert_by_Sorted (x : A) (l : list A) :
  Sorted (λ a b, String.le (key a) (key b)) l →
  Sorted (λ a b, String.le (key a) (key b)) (insert_by key x l).
Proof.
  induction 1 as [|y l Hl IH Hy]; simpl; [by repeat constructor|].
  destruct (String.leb (key x) (key y)) eqn:Hxy.
  - constructor; [by constructor|]. constructor.
    unfold String.le. by rewrite Hxy.
  - constructor; [done|]. apply leb_false_le in Hxy.
    destruct l as [|z l]; simpl in *; [by constructor|].
    destruct (String.leb (key x) (key z)); constructor; [done|].
    by inversion Hy.
Qed.

Lemma sorted_by_Sorted (l : list A) :
  Sorted (λ a b, String.le (key a) (key b)) (sorted_by key l).
Proof.
  induction l as [|x l IH]; simpl; [constructor|]. by apply insert_by_Sorted.
Qed.

(** The sort is stable: the elements of one key come out in the order in
    which they went in. *)
Lemma insert_by_filter (k : string) (x : A) (l : list A) :
  filter (λ a, key a = k) (insert_by key x l) = filter (λ a, key a = k) (x :: l).
Proof.
  induction l as [|y l IH]; simpl; [done|].
  destruct (String.leb (key x) (key y)) eqn:Hxy; [done|].
  rewrite filter_cons, IH. rewrite !(filter_cons _ x), (filter_cons _ y).
  destruct (decide (key x = k)) as [Hx|Hx]; [|done].
  destruct (decide (key y = k)) as [Hy|Hy]; [|done].
  exfalso. assert (String.le (key x) (key y)) as Hle by (by rewrite Hx, Hy).
  unfold String.le in Hle. by rewrite Hxy in Hle.
Qed.

Lemma sorted_by_filter (k : string) (l : list A) :
  filter (λ a, key a = k) (sorted_by key l) = filter (λ a, key a = k) l.
Proof.
  induction l as [|x l IH]; simpl; [done|].
  by rewrite insert_by_filter, !filter_cons, IH.
Qed.

End sorted_by_facts.

(** ** Listing a catalog *)

Section list_facts.
Import xml overlay dbbase.
Context `{!HashOrder} `{!xml.Lib} `{!overlay.Methods} `{!overlay.Listing}.
Local Open Scope list_scope.

Lemma list_loop_quiet (selection : list Overlay) (width : Z)
    (result : list (string * bool * bool)) :
  list_loop selection false width result
  = inr (result ++ (list_entry width <$> selection)).
Proof.
  revert result. induction selection as [|o selection IH]; intros result; simpl.
  - by rewrite (right_id_L [] (++)).
  - by rewrite IH, <- (assoc_L (++)).
Qed.

Lemma list_selection_Permutation (repos : option (list string)) (self : DbBase) :
  list_selection repos self
  ≡ₚ match repos with
     | None | Some [] => (map_to_list (overlays self)).*2
     | Some names => filter (λ o, name o ∈ names) (map_to_list (overlays self)).*2
     end.
Proof.
  unfold list_selection. destruct repos as [[|n names]|]; by rewrite values_perm.
Qed.


Lemma fmap_eq_nil {B C} (f : B → C) (l : list B) : f <$> l = [] ↔ l = [].
Proof. by destruct l. Qed.

Lemma filter_eq_nil {B} (P : B → Prop) `{!∀ x, Decision (P x)} (l : list B) :
  filter P l = [] ↔ Forall (λ x, ¬ P x) l.
Proof.
  induction l as [|x l IH]; [by split; [constructor|]|].
  rewrite filter_cons, Forall_cons. destruct (decide (P x)); [|by rewrite IH; tauto].
  split; [done|]. by intros [].
Qed.

(** X10.  With [verbose], [list] raises [TypeError] as soon as it has an
    overlay to list: on any catalog that is not empty when no names are
    given, and whenever one overlay of the catalog has its name among the
    names given.  Only when nothing is selected does it return, the empty
    list. *)
Theorem X10_list_verbose_raises_TypeError
    (repos : option (list string)) (width : Z) (self : DbBase) :
  DbBase_list repos true width self
  = match list_selection repos self with
    | [] => inr []
    | _ => inl (TypeError "append() takes exactly one argument (3 given)")
    end
  ∧ (list_selection repos self = []
     ↔ match repos with
       | None | Some [] => overlays self = ∅
       | Some names => ∀ k o, overlays self !! k = Some o → name o ∉ names
       end).
Proof.
  split.
  - unfold DbBase_list. by destruct (list_selection repos self).
  - rewrite <- Permutation_nil_r, list_selection_Permutation, Permutation_nil_r.
    destruct repos as [[|n names]|].
    + rewrite fmap_eq_nil. apply map_to_list_empty_iff.
    + rewrite filter_eq_nil. rewrite Forall_forall. split.
      * intros Hall k o Hk. apply Hall, list_elem_of_fmap. exists (k, o).
        split; [done|]. by apply elem_of_map_to_list.
      * intros Hall o ([k o'] & -> & Hin)%list_elem_of_fmap.
        apply elem_of_map_to_list in Hin. by apply (Hall k).
    + rewrite fmap_eq_nil. apply map_to_list_empty_iff.
Qed.

End list_facts.

(** ** More about the API *)

Section api_more.
Import xml overlay dbbase db api.
Context {world : Type} `{!Db world} `{!HashOrder} `{!xml.Lib} `{!overlay.Methods}.
Implicit Types (self : LaymanAPI (world := world)) (l : sync_lists) (id : string).
Local Open Scope list_scope.

Lemma elem_of_sorted (xs : list string) (x : string) : x ∈ sorted xs ↔ x ∈ xs.
Proof. unfold sorted. by rewrite merge_sort_Permutation. Qed.

Lemma is_installed_current id self :
  installed_ids_current self →
  is_installed id self = true ↔ is_Some (overlays (_installed_db self) !! id).
Proof.
  intros Hc. unfold is_installed. rewrite Hc, bool_decide_eq_true.
  by rewrite elem_of_sorted, elem_of_keys.
Qed.

Lemma is_repo_current id self :
  available_ids_current self →
  is_repo id self = true ↔ is_Some (overlays (_available_db self) !! id).
Proof.
  intros Hc. unfold is_repo. rewrite Hc, bool_decide_eq_true.
  by rewrite elem_of_sorted, elem_of_keys.
Qed.

Lemma get_installed_reload_current self ids self' :
  get_installed true self = (Ok ids, self') →
  installed_ids_current self'
  ∧ ids = _installed_ids self'
  ∧ _available_db self' = _available_db self
  ∧ _available_ids self' = _available_ids self
  ∧ _error_messages self' = _error_messages self.
Proof.
  unfold get_installed. destruct (DB (the_world self)) as [[d|e] w]; [|done].
  by intros [= <- <-].
Qed.

Lemma get_available_reload_current self ids self' :
  get_available true self = (Ok ids, self') →
  available_ids_current self'
  ∧ ids = _available_ids self'
  ∧ _installed_db self' = _installed_db self
  ∧ _installed_ids self' = _installed_ids self.
Proof.
  unfold get_available. destruct (RemoteDB (the_world self)) as [[d|e] w]; [|done].
  by intros [= <- <-].
Qed.

(** X11.  After a [reload] that returns, the two lists of ids are the sorted
    names of the two new catalogs, so that [is_installed] and [is_repo]
    answer for an id what the catalogs hold. *)
Theorem X11_reload_brings_ids_up_to_date self self' :
  reload self = (Ok (), self') →
  installed_ids_current self' ∧ available_ids_current self'
  ∧ ∀ id, (is_installed id self' = true
           ↔ is_Some (overlays (_installed_db self') !! id))
          ∧ (is_repo id self' = true
             ↔ is_Some (overlays (_available_db self') !! id)).
Proof.
  unfold reload, bindM, ret.
  destruct (get_available true self) as [[ids1|e] s1] eqn:Hg1; [|done].
  destruct (get_installed true s1) as [[ids2|e] s2] eqn:Hg2; [|done].
  intros [= <-].
  apply get_available_reload_current in Hg1 as (Ha & _ & _ & _).
  apply get_installed_reload_current in Hg2 as (Hi & _ & Hdb & Hids & _).
  assert (available_ids_current s2) as Ha2.
  { unfold available_ids_current. by rewrite Hdb, Hids. }
  split; [done|]. split; [done|]. intros id.
  split; [by apply is_installed_current|by apply is_repo_current].
Qed.


Lemma grown_refl results msgs : grown results results msgs msgs.
Proof. exists [], []. by rewrite !(right_id_L [] (++)). Qed.

Lemma grown_step results results' msgs msgs' (b : bool) m :
  grown (results ++ [b]) results' (if b then msgs else msgs ++ [m]) msgs' →
  grown results results' msgs msgs'.
Proof.
  intros (rs & es & -> & -> & Hlen). destruct b.
  - exists (true :: rs), es. rewrite <- (assoc_L (++)). split; [done|].
    split; [done|]. by rewrite filter_cons_False.
  - exists (false :: rs), (m :: es). rewrite <- !(assoc_L (++)). split; [done|].
    split; [done|]. rewrite filter_cons_True by done. simpl. by rewrite Hlen.
Qed.

(** The end of a round of either loop: the reload, then the rest of the
    batch. *)
Ltac finish_rest IH b results s :=
  specialize (IH results s);
  lazymatch goal with
  | |- context [add_repos_loop ?repos results s] =>
      destruct (add_repos_loop repos results s) as [[?|?] ?]
  | |- context [delete_repos_loop ?repos results s] =>
      destruct (delete_repos_loop repos results s) as [[?|?] ?]
  end;
  [ let Hg := fresh "Hg" in
    let Hcur := fresh "Hcur" in
    destruct IH as (Hg & ? & ? & Hcur); simpl in Hg;
    split; [by eapply (grown_step _ _ _ _ b)|];
    split; [done|]; split; [done|];
    intros _; apply Hcur; reflexivity
  | done ].

Ltac finish_round IH b :=
  lazymatch goal with
  | |- context [DB ?w0] =>
      let HDB := fresh "HDB" in
      destruct (DB w0) as [[?|?] ?] eqn:HDB; simpl;
      [ lazymatch goal with
        | |- context [add_repos_loop _ ?results ?s] => finish_rest IH b results s
        | |- context [delete_repos_loop _ ?results ?s] => finish_rest IH b results s
        end
      | eexists; by rewrite HDB ]
  end.

Lemma add_repos_loop_outcome repos results self :
  match add_repos_loop repos results self with
  | (Ok results', self') =>
      grown results results' (_error_messages self) (_error_messages self')
      ∧ _available_db self' = _available_db self
      ∧ _available_ids self' = _available_ids self
      ∧ (installed_ids_current self → installed_ids_current self')
  | (Raise e, self') => ∃ w, (DB w).1 = Raise e
  end.
Proof.
  revert results self. induction repos as [|id repos IH]; intros results self.
  { simpl. split; [apply grown_refl|done]. }
  simpl. unfold bindM, eval, try_except, installed_add, _error_M, ret. simpl.
  destruct (is_installed id self).
  { split; [apply (grown_step _ _ _ _ true ("", "")), grown_refl|done]. }
  simpl. destruct (is_repo id self); simpl.
  2:{ split; [eapply (grown_step _ _ _ _ false), grown_refl|done]. }
  destruct (select id (_available_db self)) as [ovl|e]; simpl.
  - destruct (DB_add _ _ _ _) as [[[?|e] d] w]; simpl.
    + finish_round IH true.
    + finish_round IH false.
  - finish_round IH false.
Qed.

Lemma delete_repos_loop_outcome repos results self :
  match delete_repos_loop repos results self with
  | (Ok results', self') =>
      grown results results' (_error_messages self) (_error_messages self')
      ∧ _available_db self' = _available_db self
      ∧ _available_ids self' = _available_ids self
      ∧ (installed_ids_current self → installed_ids_current self')
  | (Raise e, self') => ∃ w, (DB w).1 = Raise e
  end.
Proof.
  revert results self. induction repos as [|id repos IH]; intros results self.
  { simpl. split; [apply grown_refl|done]. }
  simpl. unfold bindM, eval, try_except, installed_delete, _error_M, ret. simpl.
  destruct (is_installed id self); simpl.
  2:{ split; [apply (grown_step _ _ _ _ true ("", "")), grown_refl|done]. }
  destruct (is_repo id self); simpl.
  2:{ split; [eapply (grown_step _ _ _ _ false), grown_refl|done]. }
  destruct (select id (_installed_db self)) as [ovl|e]; simpl.
  - destruct (DB_delete _ _ _) as [[[?|e] d] w]; simpl.
    + finish_round IH true.
    + finish_round IH false.
  - finish_round IH false.
Qed.

Lemma grown_overall results' msgs msgs' :
  grown [] results' msgs msgs' →
  (overall results' = false ↔ msgs' ≠ msgs) ∧ msgs `prefix_of` msgs'.
Proof.
  intros (rs & es & -> & -> & Hlen). simpl. split.
  - unfold overall. rewrite negb_false_iff, bool_decide_eq_true.
    assert (es ≠ [] ↔ msgs ++ es ≠ msgs) as <-.
    { split; intros Hne Heq; apply Hne.
      - rewrite <- (right_id_L [] (++) msgs) in Heq at 2. by apply (inj _) in Heq.
      - by rewrite Heq, (right_id_L [] (++)). }
    clear msgs. revert es Hlen. induction rs as [|[] rs IH]; intros es Hlen.
    + destruct es; [|done]. split; [by intros ?%elem_of_nil|done].
    + rewrite filter_cons_False in Hlen by done. rewrite <- (IH es Hlen).
      rewrite elem_of_cons. split; [by intros [?|?]|by right].
    + rewrite filter_cons_True in Hlen by done. destruct es; [done|].
      split; [done|]. intros _. left.
  - by exists es.
Qed.

(** X12.  [add_repos] and [delete_repos] on a list catch what goes wrong
    for an id: they raise only what the reload of the installed catalog
    raises.  When they return, they return [False] exactly when they have
    added to the error queue, whose old messages stay in front; the
    available catalog and its ids are as before, and the installed ids are
    the sorted names of the installed catalog if they were before. *)
Theorem X12_batch_calls_catch_and_queue (repos : list string) self :
  match add_repos (List repos) self with
  | (Ok r, self') =>
      (r = false ↔ _error_messages self' ≠ _error_messages self)
      ∧ _error_messages self `prefix_of` _error_messages self'
      ∧ _available_db self' = _available_db self
      ∧ _available_ids self' = _available_ids self
      ∧ (installed_ids_current self → installed_ids_current self')
  | (Raise e, _) => ∃ w, (DB w).1 = Raise e
  end
  ∧ match delete_repos (List repos) self with
    | (Ok r, self') =>
        (r = false ↔ _error_messages self' ≠ _error_messages self)
        ∧ _error_messages self `prefix_of` _error_messages self'
        ∧ _available_db self' = _available_db self
        ∧ _available_ids self' = _available_ids self
        ∧ (installed_ids_current self → installed_ids_current self')
    | (Raise e, _) => ∃ w, (DB w).1 = Raise e
    end.
Proof.
  split.
  - unfold add_repos, bindM, eval, ret. simpl.
    pose proof (add_repos_loop_outcome repos [] self) as Hout.
    destruct (add_repos_loop repos [] self) as [[results|e] self']; [|done].
    destruct Hout as (Hg & ? & ? & ?).
    destruct (grown_overall _ _ _ Hg) as (? & ?). done.
  - unfold delete_repos, bindM, eval, ret. simpl.
    pose proof (delete_repos_loop_outcome repos [] self) as Hout.
    destruct (delete_repos_loop repos [] self) as [[results|e] self']; [|done].
    destruct Hout as (Hg & ? & ? & ?).
    destruct (grown_overall _ _ _ Hg) as (? & ?). done.
Qed.

(** X13.  The call that has nothing to do does nothing: [add_repos] on an id
    that is installed, [delete_repos] on one that is not, return [True] and
    leave the object, its queue and all behind it as they were. *)
Theorem X13_nothing_to_do_is_success id self :
  (if is_installed id self then add_repos (Str id) self
   else delete_repos (Str id) self)
  = (Ok true, self).
Proof.
  destruct (is_installed id self) eqn:Hi.
  - unfold add_repos, bindM, eval, ret. simpl _check_repo_type. cbv iota beta.
    by rewrite add_repos_loop_installed.
  - unfold delete_repos, bindM, eval, ret. simpl _check_repo_type. cbv iota beta.
    by rewrite delete_repos_loop_not_installed.
Qed.

(** X14.  An id that is not in the list of available ids is refused both
    ways: [add_repos] does not install it, and [delete_repos] does not
    remove it even when it is installed.  The call returns [False], queues
    the message that the id is not listed, and touches nothing else. *)
Theorem X14_unlisted_id_is_refused id self :
  is_repo id self = false →
  (if is_installed id self then delete_repos (Str id) self
   else add_repos (Str id) self)
  = (Ok false, _error 1 (UNKNOWN_REPO_ID id) self).
Proof.
  intros Hr. destruct (is_installed id self) eqn:Hi.
  - unfold delete_repos, bindM, eval, ret. simpl _check_repo_type. cbv iota beta.
    by rewrite delete_repos_loop_unknown.
  - unfold add_repos, bindM, eval, ret. simpl _check_repo_type. cbv iota beta.
    by rewrite add_repos_loop_unknown.
Qed.


(** X25.  [add_repos] on one id that is listed, in the available catalog
    and not installed: the available definition goes to [DB.add], quietly,
    and the installed catalog is reloaded whether [DB.add] raises or not.
    When it does not raise the call returns [True]; when it raises, the call
    returns [False] and queues, with code -2, the text of the exception.
    Only an exception of the reload comes out of the call. *)
Theorem X25_add_repos_on_a_new_id id self o :
  is_installed id self = false →
  is_repo id self = true →
  overlays (_available_db self) !! id = Some o →
  let '(r, d, w) := DB_add (_installed_db self) o true (the_world self) in
  match DB w with
  | (Ok d', w') =>
      add_repos (Str id) self
      = match r with
        | Ok _ =>
            (Ok true, set_installed d' (sorted (keys (overlays d'))) w' self)
        | Raise e =>
            (Ok false,
             set_installed d' (sorted (keys (overlays d'))) w'
               (_error ERROR_INTERNAL_ERROR
                  ("Failed to enable repository " ++ squote ++ id ++ squote
                   ++ " : " ++ str e)%string self))
        end
  | (Raise e', w') => (add_repos (Str id) self).1 = Raise e'
  end.
Proof.
  intros Hi Hr Ho. unfold add_repos. simpl _check_repo_type.
  unfold bindM, eval, ret. simpl.
  unfold bindM, eval, try_except, installed_add, _error_M, ret. simpl.
  rewrite Hi. simpl. rewrite Hr. simpl. rewrite (select_present _ _ _ Ho).
  destruct (DB_add _ _ _ _) as [[[?|e] d] w]; simpl;
    by destruct (DB w) as [[d'|e'] w'].
Qed.

(** X26.  [delete_repos] on one id that is installed and listed: the
    installed definition goes to [DB.delete], and the installed catalog is
    reloaded whether [DB.delete] raises or not.  When it does not raise the
    call returns [True]; when it raises, the call returns [False] and queues,
    with code -2, the text of the exception. *)
Theorem X26_delete_repos_on_an_installed_id id self o :
  is_installed id self = true →
  is_repo id self = true →
  overlays (_installed_db self) !! id = Some o →
  let '(r, d, w) := DB_delete (_installed_db self) o (the_world self) in
  match DB w with
  | (Ok d', w') =>
      delete_repos (Str id) self
      = match r with
        | Ok _ =>
            (Ok true, set_installed d' (sorted (keys (overlays d'))) w' self)
        | Raise e =>
            (Ok false,
             set_installed d' (sorted (keys (overlays d'))) w'
               (_error ERROR_INTERNAL_ERROR
                  ("Failed to disable repository " ++ squote ++ id ++ squote
                   ++ ":" ++ nl ++ str e)%string self))
        end
  | (Raise e', w') => (delete_repos (Str id) self).1 = Raise e'
  end.
Proof.
  intros Hi Hr Ho. unfold delete_repos. simpl _check_repo_type.
  unfold bindM, eval, ret. simpl.
  unfold bindM, eval, try_except, installed_delete, _error_M, ret. simpl.
  rewrite Hi. simpl. rewrite Hr. simpl. rewrite (select_present _ _ _ Ho).
  destruct (DB_delete _ _ _) as [[[?|e] d] w]; simpl;
    by destruct (DB w) as [[d'|e'] w'].
Qed.

(** *** sync *)

(** [select] ends in its entry or in [NameError], and in nothing else. *)
Lemma select_not_UnknownOverlayException (d : DbBase) id e :
  select id d = Raise e → isinstance e UnknownOverlayExceptionClass = false.
Proof.
  destruct (overlays d !! id) as [o|] eqn:Hid.
  - by rewrite (select_present _ _ _ Hid).
  - rewrite (select_absent _ _ Hid). by intros [= <-].
Qed.

Lemma check_source_triples id odb ordb l l' :
  check_source id odb ordb l = Ok l' →
  fatals l' = fatals l ∧ success l' = success l
  ∧ (Forall is_triple (warnings l) → Forall is_triple (warnings l')).
Proof.
  unfold check_source. destruct (first_source odb) as [s0|]; simpl; [|done].
  case_match; [|by intros [= <-]].
  destruct (set_of _) as [|v [|v' vs]]; intros [= <-]; simpl;
    (split; [done|split; [done|]]); intros Hl; apply Forall_app; split; try done;
    by repeat constructor.
Qed.

(** What a round of [sync] leaves alone, however it ends. *)
Lemma sync_step_keeps id l self :
  let self' := (sync_step id l self).2 in
  _installed_db self' = _installed_db self
  ∧ _installed_ids self' = _installed_ids self
  ∧ _available_db self' = _available_db self
  ∧ _available_ids self' = _available_ids self
  ∧ _error_messages self' = _error_messages self
  ∧ sync_results self' = sync_results self
  ∧ output self' = output self.
Proof.
  unfold sync_step.
  destruct (select id (_installed_db self)) as [odb|e] eqn:Hsel.
  2:{ by rewrite (select_not_UnknownOverlayException _ _ _ Hsel). }
  destruct (select id (_available_db self)) as [ordb|e] eqn:Hsel'.
  2:{ by rewrite (select_not_UnknownOverlayException _ _ _ Hsel'). }
  destruct (check_source id odb ordb l); [|done].
  by destruct (DB_sync _ _ _ _) as [[?|?] ?].
Qed.

Lemma sync_step_triples id l self :
  Forall is_triple (warnings l) →
  Forall is_triple (warnings (sync_step id l self).1.2).
Proof.
  intros Hl. unfold sync_step.
  destruct (select id (_installed_db self)) as [odb|e] eqn:Hsel.
  2:{ by rewrite (select_not_UnknownOverlayException _ _ _ Hsel). }
  destruct (select id (_available_db self)) as [ordb|e] eqn:Hsel'.
  2:{ by rewrite (select_not_UnknownOverlayException _ _ _ Hsel'). }
  destruct (check_source id odb ordb l) as [l1|] eqn:Hc; [|done].
  apply check_source_triples in Hc as (_ & _ & Hw).
  destruct (DB_sync _ _ _ _) as [[?|?] ?]; simpl; by apply Hw.
Qed.

Lemma sync_loop_triples repos l self :
  Forall is_triple (warnings l) →
  Forall is_triple (warnings (sync_loop repos l self).1.2).
Proof.
  revert l self. induction repos as [|id repos IH]; intros l self Hl; [done|].
  simpl. pose proof (sync_step_triples id l self Hl) as Hstep.
  destruct (sync_step id l self) as [[[?|e] l1] self1]; simpl in *; [|done].
  by apply IH.
Qed.

Lemma sync_loop_keeps repos l self :
  let self' := (sync_loop repos l self).2 in
  _installed_db self' = _installed_db self
  ∧ _installed_ids self' = _installed_ids self
  ∧ _available_db self' = _available_db self
  ∧ _available_ids self' = _available_ids self
  ∧ _error_messages self' = _error_messages self
  ∧ sync_results self' = sync_results self
  ∧ output self' = output self.
Proof.
  revert l self. induction repos as [|id repos IH]; intros l self; [done|].
  simpl. pose proof (sync_step_keeps id l self) as Hstep.
  destruct (sync_step id l self) as [[[?|e] l1] self1]; simpl in *; [|done].
  specialize (IH l1 self1). simpl in IH.
  destruct IH as (? & ? & ? & ? & ? & ? & ?).
  destruct Hstep as (? & ? & ? & ? & ? & ? & ?).
  repeat split; congruence.
Qed.

(** X15.  The warning that an overlay could not be found in the remote
    lists is never recorded: every entry that a batch of [sync] leaves in
    its warning list, however the batch ends, is the triple of the
    source-changed warning. *)
Theorem X15_sync_warnings_are_triples repos self :
  Forall is_triple (warnings (sync_loop repos no_entries self).1.2).
Proof. apply sync_loop_triples. constructor. Qed.

(** The report only adds to what was sent to the message sink. *)
Lemma report_warnings_keeps {B} (f : LaymanAPI (world := world) → B) ws self :
  (∀ calls s, f (emit calls s) = f s) →
  f (report_warnings ws self).2 = f self.
Proof.
  intros Hf. revert self.
  induction ws as [|[i m|i fm a] ws IH]; intros self; simpl; [done| |done].
  unfold bindM. simpl. specialize (IH (emit [warn (m ++ nl)%string 2] self)).
  rewrite Hf in IH. by destruct (report_warnings ws _) as [[?|?] ?].
Qed.

Lemma report_keeps {B} (f : LaymanAPI (world := world) → B) l self :
  (∀ calls s, f (emit calls s) = f s) →
  f (report l self).2 = f self.
Proof.
  intros Hf. unfold report, bindM.
  assert (f (report_success l self).2 = f self) as Hs1.
  { unfold report_success. destruct (success l); simpl; [done|apply Hf]. }
  destruct (report_success l self) as [[?|e] s1]; simpl in Hs1; [|done].
  assert (f (report_all_warnings l s1).2 = f s1) as Hs2.
  { unfold report_all_warnings. destruct (warnings l) as [|w ws]; [done|].
    unfold bindM. simpl. by rewrite (report_warnings_keeps f (w :: ws)), Hf. }
  destruct (report_all_warnings l s1) as [[?|e] s2]; simpl in *; [|congruence].
  unfold report_fatals. destruct (fatals l); simpl; [congruence|].
  rewrite Hf. congruence.
Qed.

Lemma sync_keeps {B} (f : LaymanAPI (world := world) → B)
    (repos : arg) (output_results : bool) self :
  (∀ calls s, f (emit calls s) = f s) →
  (∀ r s, f (set_sync_results r s) = f s) →
  (∀ ids l, f (sync_loop ids l self).2 = f self) →
  f (sync repos output_results self).2 = f self.
Proof.
  intros Hemit Hset Hloop. unfold sync, bindM, eval, ret.
  destruct (_check_repo_type repos "sync") as [ids|e]; [|done]. simpl.
  specialize (Hloop ids no_entries).
  destruct (sync_loop ids no_entries self) as [[[?|e] l] s1]; simpl in *; [|done].
  destruct output_results.
  - pose proof (report_keeps f l s1 Hemit) as Hrep.
    destruct (report l s1) as [[[]|?] s2]; simpl in *; [congruence| |congruence].
    rewrite Hset. congruence.
  - simpl. rewrite Hset. congruence.
Qed.

(** X16.  [sync] does not touch the catalogs, the lists of ids or the error
    queue, whatever it is given and however it ends. *)
Theorem X16_sync_keeps_catalogs_and_queue (repos : arg) (output_results : bool) self :
  let self' := (sync repos output_results self).2 in
  _installed_db self' = _installed_db self
  ∧ _installed_ids self' = _installed_ids self
  ∧ _available_db self' = _available_db self
  ∧ _available_ids self' = _available_ids self
  ∧ _error_messages self' = _error_messages self.
Proof.
  simpl. repeat split; apply sync_keeps; try done; intros ids l;
    by destruct (sync_loop_keeps ids l self) as (? & ? & ? & ? & ? & ? & ?).
Qed.


(** A round of [sync] for an id that both catalogs have, and whose installed
    definition has a source: the adapter is run, and its outcome decides
    between the success list and the fatal list. *)
Lemma sync_step_both id l self odb ordb :
  overlays (_installed_db self) !! id = Some odb →
  overlays (_available_db self) !! id = Some ordb →
  sources odb ≠ [] →
  ∃ l1 m self', check_source id odb ordb l = Ok l1
    ∧ fatals l1 = fatals l ∧ success l1 = success l
    ∧ (sync_step id l self = (Ok (), add_success (id, m) l1, self')
       ∨ sync_step id l self = (Ok (), add_fatal (id, m) l1, self')).
Proof.
  intros Hi Ha Hsrc. unfold sync_step.
  rewrite (select_present _ _ _ Hi), (select_present _ _ _ Ha).
  destruct (check_source id odb ordb l) as [l1|e] eqn:Hc.
  2:{ unfold check_source, first_source in Hc. destruct (sources odb); [done|].
      simpl in Hc. by repeat case_match. }
  destruct (check_source_triples _ _ _ _ _ Hc) as (Hf & Hs & _).
  destruct (DB_sync _ _ _ _) as [[?|e] w]; eexists l1, _, _;
    (split; [done|split; [done|split; [done|]]]); [by left|by right].
Qed.

Lemma sync_loop_both repos l self :
  Forall (λ id, (∃ odb, overlays (_installed_db self) !! id = Some odb
                        ∧ sources odb ≠ [])
                ∧ is_Some (overlays (_available_db self) !! id)) repos →
  (sync_loop repos l self).1.1 = Ok ()
  ∧ success_ids (sync_loop repos l self).1.2 ++ fatal_ids (sync_loop repos l self).1.2
    ≡ₚ success_ids l ++ fatal_ids l ++ repos.
Proof.
  revert l self. induction repos as [|id repos IH]; intros l self Hall.
  { simpl. by rewrite (right_id_L [] (++)). }
  apply Forall_cons in Hall as [[(odb & Hi & Hsrc) [ordb Ha]] Hall].
  destruct (sync_step_both id l self odb ordb Hi Ha Hsrc)
    as (l1 & m & self' & _ & Hf & Hs & Hstep).
  pose proof (sync_step_keeps id l self) as Hkeep. simpl in Hkeep.
  simpl. destruct Hstep as [Hstep|Hstep]; rewrite Hstep in Hkeep |- *;
    simpl in Hkeep; destruct Hkeep as (Hdb & _ & Hdb' & _).
  - destruct (IH (add_success (id, m) l1) self') as [IH1 IH2];
      [by rewrite Hdb, Hdb'|].
    split; [done|]. rewrite IH2. unfold success_ids, fatal_ids. simpl.
    rewrite fmap_app, Hf, Hs. simpl. rewrite <- !(assoc_L (++)). simpl.
    apply Permutation_app_head. by rewrite <- Permutation_middle.
  - destruct (IH (add_fatal (id, m) l1) self') as [IH1 IH2];
      [by rewrite Hdb, Hdb'|].
    split; [done|]. rewrite IH2. unfold success_ids, fatal_ids. simpl.
    rewrite fmap_app, Hf, Hs. simpl. by rewrite <- !(assoc_L (++)).
Qed.

(** X17.  A failure of the adapter does not end the batch.  When every id of
    a batch is in both catalogs and has a source where it is installed, the
    loop of [sync] comes to its end, and every id of the batch has one
    entry, in the success list or in the fatal list. *)
Theorem X17_sync_gives_every_id_its_entry repos self :
  Forall (λ id, (∃ odb, overlays (_installed_db self) !! id = Some odb
                        ∧ sources odb ≠ [])
                ∧ is_Some (overlays (_available_db self) !! id)) repos →
  (sync_loop repos no_entries self).1.1 = Ok ()
  ∧ success_ids (sync_loop repos no_entries self).1.2
    ++ fatal_ids (sync_loop repos no_entries self).1.2 ≡ₚ repos.
Proof. intros Hall. by destruct (sync_loop_both repos no_entries self Hall). Qed.

Lemma report_no_warnings l self :
  warnings l = [] →
  ∃ s, report l self = (Ok (negb (bool_decide (fatals l = []))), s).
Proof.
  intros Hw. unfold report, bindM, report_success, report_all_warnings, report_fatals.
  rewrite Hw. destruct (success l); simpl; destruct (fatals l); simpl; eauto.
Qed.

Lemma report_triple l self :
  warnings l ≠ [] → Forall is_triple (warnings l) →
  ∃ s, report l self = (Raise (ValueError "too many values to unpack"), s).
Proof.
  intros Hne Hall. unfold report, bindM, report_success, report_all_warnings.
  destruct (warnings l) as [|[i m|i f a] ws]; [done|by inversion Hall|].
  destruct (success l); simpl; unfold bindM; simpl; eauto.
Qed.

(** X18.  How [sync] on a list ends, from how its loop ends.  An exception
    in the loop is the outcome.  Otherwise, with [output_results] off the
    call returns [True] and stores the three lists.  With it on: without
    warnings and without fatals it returns [True] and stores the lists;
    without warnings and with fatals it returns [False] and stores nothing;
    with a warning it ends in [ValueError] and stores nothing. *)
Theorem X18_sync_outcomes repos self :
  match sync_loop repos no_entries self with
  | (Raise e, _, self') =>
      ∀ output_results, sync (List repos) output_results self = (Raise e, self')
  | (Ok _, l, self') =>
      sync (List repos) false self = (Ok true, set_sync_results (lists l) self')
      ∧ ∃ s, match warnings l, fatals l with
             | [], [] => sync (List repos) true self = (Ok true, s)
                         ∧ sync_results s = lists l
             | [], _ :: _ => sync (List repos) true self = (Ok false, s)
                             ∧ sync_results s = sync_results self
             | _ :: _, _ =>
                 sync (List repos) true self
                 = (Raise (ValueError "too many values to unpack"), s)
                 ∧ sync_results s = sync_results self
             end
  end.
Proof.
  pose proof (sync_loop_triples repos no_entries self (Forall_nil_2 _)) as Htri.
  pose proof (sync_loop_keeps repos no_entries self) as Hkeep.
  unfold sync, bindM, eval, ret. simpl _check_repo_type. cbv iota beta.
  destruct (sync_loop repos no_entries self) as [[[[]|e] l] self'];
    simpl in Htri, Hkeep; [|done].
  destruct Hkeep as (_ & _ & _ & _ & _ & Hres & _).
  split; [done|].
  pose proof (report_sync_results l self') as Hrep.
  destruct (warnings l) as [|w ws] eqn:Hw.
  - destruct (report_no_warnings l self' Hw) as [s Hs]. rewrite Hs in Hrep |- *.
    simpl in Hrep. destruct (fatals l); simpl; eexists; (split; [done|]);
      simpl; congruence.
  - destruct (report_triple l self') as [s Hs]; [by rewrite Hw|by rewrite Hw|].
    rewrite Hs in Hrep |- *. simpl in Hrep. eexists. split; [done|]. congruence.
Qed.

(** X19.  The source-changed warning.  In a round of [sync] for an id that
    both catalogs have, a warning is added exactly when the uri of the first
    installed source is not among the uris on offer; it names the id and
    that uri, and its plural is empty exactly when one uri is on offer. *)
Theorem X19_sync_warns_when_source_not_offered id l self odb ordb s0 rest :
  overlays (_installed_db self) !! id = Some odb →
  overlays (_available_db self) !! id = Some ordb →
  sources odb = s0 :: rest →
  if bool_decide (src s0 ∈ src <$> sources ordb)
  then warnings (sync_step id l self).1.2 = warnings l
  else ∃ c, warnings (sync_step id l self).1.2
            = warnings l
              ++ [warning3 id source_changed_format
                    {| repo_name := id; current_src := src s0; candidates := c;
                       plural := if bool_decide
                                      (length (remove_dups (src <$> sources ordb)) = 1%nat)
                                 then EmptyString else "s"%string |}].
Proof.
  intros Hi Ha Hsrc.
  assert (Hc : check_source id odb ordb l
               = Ok (if bool_decide (src s0 ∈ src <$> sources ordb) then l
                     else add_warning
                            (warning3 id source_changed_format
                               {| repo_name := id; current_src := src s0;
                                  candidates :=
                                    match set_of (src <$> sources ordb) with
                                    | [v] => ("  " ++ v)%string
                                    | vs =>
                                        String.concat nl
                                          (imap (λ i v, ("  " ++ fmt_d (Z.of_nat i + 1)
                                                         ++ ". " ++ v)%string) vs)
                                    end;
                                  plural :=
                                    if bool_decide
                                         (length (remove_dups (src <$> sources ordb))
                                          = 1%nat)
                                    then EmptyString else "s"%string |}) l)).
  { unfold check_source, first_source. rewrite Hsrc. simpl.
    assert (length (set_of (src <$> sources ordb))
            = length (remove_dups (src <$> sources ordb))) as Hlen.
    { unfold set_of. by rewrite set_order_perm. }
    rewrite <- Hlen.
    assert (bool_decide (src s0 ∈ set_of (src <$> sources ordb))
            = bool_decide (src s0 ∈ src <$> sources ordb)) as ->.
    { apply bool_decide_ext, elem_of_set_of. }
    destruct (bool_decide (src s0 ∈ src <$> sources ordb)); simpl; [done|].
    by destruct (set_of (src <$> sources ordb)) as [|v [|v' vs]]. }
  unfold sync_step.
  rewrite (select_present _ _ _ Hi), (select_present _ _ _ Ha), Hc.
  destruct (bool_decide (src s0 ∈ src <$> sources ordb));
    destruct (DB_sync _ _ _ _) as [[?|e] w]; simpl; eauto.
Qed.


(** *** The information calls *)

Lemma get_info_str_step_listed id (m : gmap string info_value) self o :
  is_repo id self = true →
  overlays (_available_db self) !! id = Some o →
  get_info_str_step id m self = (Ok (<[id := info_tuple_of o]> m), self).
Proof.
  intros Hr Ho. unfold get_info_str_step, bindM, eval, ret. simpl.
  rewrite Hr. simpl. by rewrite (select_present _ _ _ Ho).
Qed.

Lemma get_all_info_step_listed id (m : gmap string info_value) self o s0 rest :
  is_repo id self = true →
  overlays (_available_db self) !! id = Some o →
  sources o = s0 :: rest →
  get_all_info_step id m self = (Ok (<[id := info_dict_of o s0]> m), self).
Proof.
  intros Hr Ho Hs. unfold get_all_info_step, bindM, eval, ret. simpl.
  rewrite Hr. simpl. rewrite (select_present _ _ _ Ho).
  unfold first_source. by rewrite Hs.
Qed.

Lemma get_info_str_loop_listed repos (m : gmap string info_value) self :
  Forall (λ id, is_repo id self = true
                ∧ is_Some (overlays (_available_db self) !! id)) repos →
  ∃ m', get_info_str_loop repos m self = (Ok m', self)
        ∧ ∀ k, m' !! k = if bool_decide (k ∈ repos)
                         then info_tuple_of <$> overlays (_available_db self) !! k
                         else m !! k.
Proof.
  intros Hall. revert m. induction Hall as [|id repos [Hr [o Ho]] _ IH]; intros m.
  { exists m. split; [done|]. intros k. by rewrite bool_decide_eq_false_2 by apply not_elem_of_nil. }
  simpl. unfold bindM. rewrite (get_info_str_step_listed _ _ _ _ Hr Ho).
  destruct (IH (<[id := info_tuple_of o]> m)) as (m' & -> & Hm').
  exists m'. split; [done|]. intros k. rewrite Hm'.
  destruct (decide (k ∈ repos)) as [Hin|Hin].
  - rewrite !bool_decide_eq_true_2; [done| by right | done].
  - rewrite (bool_decide_eq_false_2 _ Hin). destruct (decide (k = id)) as [->|Hne].
    + rewrite bool_decide_eq_true_2 by left. by rewrite lookup_insert_eq, Ho.
    + rewrite bool_decide_eq_false_2 by (by intros [?|?]%elem_of_cons).
      by rewrite lookup_insert_ne.
Qed.

Lemma get_all_info_loop_listed repos (m : gmap string info_value) self :
  Forall (λ id, is_repo id self = true
                ∧ ∃ o, overlays (_available_db self) !! id = Some o
                       ∧ sources o ≠ []) repos →
  ∃ m', get_all_info_loop repos m self = (Ok m', self)
        ∧ ∀ k, m' !! k = if bool_decide (k ∈ repos)
                         then overlays (_available_db self) !! k ≫= info_dict_entry
                         else m !! k.
Proof.
  intros Hall. revert m.
  induction Hall as [|id repos [Hr (o & Ho & Hs)] _ IH]; intros m.
  { exists m. split; [done|]. intros k. by rewrite bool_decide_eq_false_2 by apply not_elem_of_nil. }
  destruct (sources o) as [|s0 rest] eqn:Hsrc; [done|].
  simpl. unfold bindM. rewrite (get_all_info_step_listed _ _ _ _ _ _ Hr Ho Hsrc).
  destruct (IH (<[id := info_dict_of o s0]> m)) as (m' & -> & Hm').
  exists m'. split; [done|]. intros k. rewrite Hm'.
  destruct (decide (k ∈ repos)) as [Hin|Hin].
  - rewrite !bool_decide_eq_true_2; [done| by right | done].
  - rewrite (bool_decide_eq_false_2 _ Hin). destruct (decide (k = id)) as [->|Hne].
    + rewrite bool_decide_eq_true_2 by left. rewrite lookup_insert_eq, Ho. simpl.
      unfold info_dict_entry. by rewrite Hsrc.
    + rewrite bool_decide_eq_false_2 by (by intros [?|?]%elem_of_cons).
      by rewrite lookup_insert_ne.
Qed.

(** X20.  [get_info_str] on ids that are all listed and in the available
    catalog returns a dictionary whose keys are these ids, each with the
    text, the official flag and the supported flag of its available
    definition; the object is left as it was. *)
Theorem X20_get_info_str_of_listed_ids repos self :
  Forall (λ id, is_repo id self = true
                ∧ is_Some (overlays (_available_db self) !! id)) repos →
  ∃ m, get_info_str (List repos) self = (Ok m, self)
       ∧ ∀ k, m !! k = if bool_decide (k ∈ repos)
                       then info_tuple_of <$> overlays (_available_db self) !! k
                       else None.
Proof.
  intros Hall. unfold get_info_str, bindM, eval. simpl.
  destruct (get_info_str_loop_listed repos ∅ self Hall) as (m & -> & Hm).
  exists m. split; [done|]. intros k. rewrite Hm. by rewrite lookup_empty.
Qed.

(** X21.  [get_all_info] on ids that are all listed, in the available
    catalog and with a source there, returns a dictionary whose keys are
    these ids, each with the fields of its available definition, the type of
    its first source as [src_type] and the uris of all its sources; the
    object is left as it was. *)
Theorem X21_get_all_info_of_listed_ids repos self :
  Forall (λ id, is_repo id self = true
                ∧ ∃ o, overlays (_available_db self) !! id = Some o
                       ∧ sources o ≠ []) repos →
  ∃ m, get_all_info (List repos) self = (Ok m, self)
       ∧ ∀ k, m !! k = if bool_decide (k ∈ repos)
                       then overlays (_available_db self) !! k ≫= info_dict_entry
                       else None.
Proof.
  intros Hall. unfold get_all_info, bindM, eval. simpl.
  destruct (get_all_info_loop_listed repos ∅ self Hall) as (m & -> & Hm).
  exists m. split; [done|]. intros k. rewrite Hm. by rewrite lookup_empty.
Qed.

(** X22.  For an id that the available catalog does not have, the two
    information calls return no placeholder: they end in [NameError], after
    the message that the id is not listed has been queued when the id is not
    in the list of available ids either. *)
Theorem X22_info_of_absent_id_raises_NameError id self :
  overlays (_available_db self) !! id = None →
  get_info_str (Str id) self
  = (Raise (NameError "message"),
     if is_repo id self then self else _error 1 (UNKNOWN_REPO_ID id) self)
  ∧ get_all_info (Str id) self
    = (Raise (NameError "message"),
       if is_repo id self then self else _error 1 (UNKNOWN_REPO_ID id) self).
Proof.
  intros Hid. unfold get_info_str, get_all_info, bindM, eval. simpl.
  unfold get_info_str_step, get_all_info_step, bindM, eval, _error_M, ret. simpl.
  destruct (is_repo id self); simpl; by rewrite (select_absent _ _ Hid).
Qed.

(** *** The error queue *)

(** X23.  The queue is read once.  After any number of calls of [_error],
    [get_errors] returns the messages that were in the queue followed by
    those of the calls, in the order of the calls, each with its code in
    front; it leaves the queue empty, and asked again at once it returns
    [None].  On an empty queue it returns [None] and changes nothing. *)
Theorem X23_get_errors_drains_the_queue (errs : list (Z * string)) self :
  let queued := foldl (λ s e, _error e.1 e.2 s) self errs in
  let msgs := _error_messages self
              ++ ((λ e, ("Error: " ++ fmt_d e.1 ++ ",", e.2)%string) <$> errs) in
  _error_messages queued = msgs
  ∧ match msgs with
    | [] => get_errors queued = (Ok None, queued)
    | _ => (get_errors queued).1 = Ok (Some msgs)
           ∧ _error_messages (get_errors queued).2 = []
           ∧ (get_errors (get_errors queued).2).1 = Ok None
    end.
Proof.
  simpl.
  assert (Hq : _error_messages (foldl (λ s e, _error e.1 e.2 s) self errs)
               = _error_messages self
                 ++ ((λ e, ("Error: " ++ fmt_d e.1 ++ ",", e.2)%string) <$> errs)).
  { revert self. induction errs as [|[n m] errs IH]; intros self; simpl.
    - by rewrite (right_id_L [] (++)).
    - rewrite IH. simpl. by rewrite <- (assoc_L (++)). }
  split; [done|]. rewrite <- Hq. unfold get_errors.
  by destruct (_error_messages (foldl _ self errs)).
Qed.

End api_more.

Section fetch_more.
Import xml overlay dbbase db api.
Context {world : Type} `{!Db world} `{!RemoteCache world}
        `{!HashOrder} `{!xml.Lib} `{!overlay.Methods}.
Implicit Types (self : LaymanAPI (world := world)) (id : string).
Local Open Scope list_scope.

(** X24.  [fetch_remote_list] lets no exception out: it returns [True] when
    the cache has been fetched and [False] when fetching raised, with one
    message of code -1 added to the queue.  Either way the list of available
    ids is not renewed, so [is_repo] answers as before the call. *)
Theorem X24_fetch_remote_list_catches self :
  ∃ b self', fetch_remote_list self = (Ok b, self')
    ∧ (b = true ↔ (RemoteDB_cache (_available_db self) (the_world self)).1.1 = Ok ())
    ∧ (if b then _error_messages self' = _error_messages self
       else ∃ m, _error_messages self'
                 = _error_messages self ++ [("Error: -1,"%string, m)])
    ∧ _available_ids self' = _available_ids self
    ∧ (∀ id, is_repo id self' = is_repo id self)
    ∧ _installed_db self' = _installed_db self
    ∧ _installed_ids self' = _installed_ids self.
Proof.
  unfold fetch_remote_list, try_except, bindM, available_cache, _error_M, ret.
  destruct (RemoteDB_cache _ _) as [[[[]|e] d] w]; simpl.
  - eexists true, _. split; [done|]. by repeat split.
  - eexists false, _. split; [done|]. split; [by split|].
    split; [by eexists|]. by repeat split.
Qed.

End fetch_more.

(** ** The properties above on the concrete collaborators *)

Section more_on_fixture.
Import xml overlay dbbase db api fixture.
Local Existing Instances order xml_lib methods database listing remote_cache.
Local Open Scope list_scope.

(** X3 on the document of [a_catalog], read into an empty catalog. *)
Lemma X3_witness :
  fromstring (text_of a_document) = inr a_document
  ∧ Forall (λ e, is_Some (accepted e))
           (findall "overlay" a_document ++ findall "repo" a_document)
  ∧ ((read (text_of a_document) "global.xml" an_empty_catalog).1 = Ok ()
     ∧ ∀ k, overlays (read (text_of a_document) "global.xml" an_empty_catalog).2 !! k
            = match last_named k (found_overlays a_document) with
              | Some o => Some o
              | None => overlays an_empty_catalog !! k
              end).
Proof.
  assert (Hp : fromstring (text_of a_document) = inr a_document)
    by (vm_compute; reflexivity).
  assert (Hacc : Forall (λ e, is_Some (accepted e))
                   (findall "overlay" a_document ++ findall "repo" a_document)).
  { apply (bool_decide_unpack _). vm_compute. exact I. }
  split; [exact Hp|]. split; [exact Hacc|].
  exact (X3_read_last_entry_wins an_empty_catalog (text_of a_document)
           "global.xml" a_document Hp Hacc).
Defined.

(** X4 on the document where wrobel stands first as a [repo], then as an
    [overlay]: the [repo] is the one that stays. *)
Lemma X4_witness :
  fromstring (text_of mixed_document) = inr mixed_document
  ∧ Forall (λ e, is_Some (accepted e))
           (findall "overlay" mixed_document ++ findall "repo" mixed_document)
  ∧ last_named "wrobel" (omap accepted (findall "repo" mixed_document))
    = Some wrobel_again
  ∧ overlays (read (text_of mixed_document) "local.xml" a_catalog).2 !! "wrobel"
    = Some wrobel_again.
Proof.
  assert (Hp : fromstring (text_of mixed_document) = inr mixed_document)
    by (vm_compute; reflexivity).
  assert (Hacc : Forall (λ e, is_Some (accepted e))
                   (findall "overlay" mixed_document ++ findall "repo" mixed_document)).
  { apply (bool_decide_unpack _). vm_compute. exact I. }
  assert (Hlast : last_named "wrobel" (omap accepted (findall "repo" mixed_document))
                  = Some wrobel_again) by (vm_compute; reflexivity).
  split; [exact Hp|]. split; [exact Hacc|]. split; [exact Hlast|].
  exact (X4_read_repo_overrides_overlay a_catalog (text_of mixed_document)
           "local.xml" mixed_document "wrobel" wrobel_again Hp Hacc Hlast).
Defined.

(** X5 on the document whose second element has no source. *)
Lemma X5_witness :
  fromstring (text_of broken_document) = inr broken_document
  ∧ findall "overlay" broken_document ++ findall "repo" broken_document
    = [overlay_to_xml wrobel] ++ no_source :: [overlay_to_xml wrobel_stable]
  ∧ Forall (λ e, is_Some (accepted e)) [overlay_to_xml wrobel]
  ∧ of_xml no_source
    = Raise (Exception ("Overlay " ++ dquote ++ "empty" ++ dquote
                        ++ " is missing a source entry")%string)
  ∧ read (text_of broken_document) "local.xml" an_empty_catalog
    = (Raise (Exception ("Overlay " ++ dquote ++ "empty" ++ dquote
                         ++ " is missing a source entry")%string),
       set_overlays (store_all (overlays an_empty_catalog)
                               (omap accepted [overlay_to_xml wrobel]))
                    an_empty_catalog).
Proof.
  assert (Hp : fromstring (text_of broken_document) = inr broken_document)
    by (vm_compute; reflexivity).
  assert (Hf : findall "overlay" broken_document ++ findall "repo" broken_document
               = [overlay_to_xml wrobel] ++ no_source :: [overlay_to_xml wrobel_stable])
    by (vm_compute; reflexivity).
  assert (Hacc : Forall (λ e, is_Some (accepted e)) [overlay_to_xml wrobel]).
  { apply (bool_decide_unpack _). vm_compute. exact I. }
  assert (He : of_xml no_source
               = Raise (Exception ("Overlay " ++ dquote ++ "empty" ++ dquote
                                   ++ " is missing a source entry")%string))
    by (vm_compute; reflexivity).
  split; [exact Hp|]. split; [exact Hf|]. split; [exact Hacc|]. split; [exact He|].
  exact (X5_read_stores_up_to_rejected_element an_empty_catalog
           (text_of broken_document) "local.xml" broken_document
           [overlay_to_xml wrobel] [overlay_to_xml wrobel_stable] no_source _
           Hp Hf Hacc He).
Defined.

(** X6 on two files and a path that does not exist between them. *)
Lemma X6_witness :
  mapM (loads some_files) ["global.xml"; "missing.xml"; "local.xml"]
  = Some [found_overlays a_document; []; found_overlays mixed_document]
  ∧ ∃ self, dbbase.__init__ DbBase_class ["global.xml"; "missing.xml"; "local.xml"] some_files
            = Ok self
            ∧ __class__ self = DbBase_class
            ∧ paths self = ["global.xml"; "missing.xml"; "local.xml"]
            ∧ ∀ k, overlays self !! k
                   = last_named k (concat [found_overlays a_document; [];
                                           found_overlays mixed_document]).
Proof.
  assert (Hl : mapM (loads some_files) ["global.xml"; "missing.xml"; "local.xml"]
               = Some [found_overlays a_document; []; found_overlays mixed_document])
    by (vm_compute; reflexivity).
  split; [exact Hl|].
  exact (X6_init_merges_documents_in_order DbBase_class
           ["global.xml"; "missing.xml"; "local.xml"] some_files _ Hl).
Defined.

(** X7 on the document of [a_catalog]. *)
Lemma X7_witness :
  fromstring (text_of a_document) = inr a_document
  ∧ Forall (λ e, is_Some (accepted e))
           (findall "overlay" a_document ++ findall "repo" a_document)
  ∧ NoDup (name <$> found_overlays a_document)
  ∧ ((∀ o, o ∈ found_overlays a_document →
           select (name o) (read (text_of a_document) "global.xml" an_empty_catalog).2
           = Ok o)
     ∧ (∀ k, k ∉ name <$> found_overlays a_document →
             select k (read (text_of a_document) "global.xml" an_empty_catalog).2
             = select k an_empty_catalog)).
Proof.
  assert (Hp : fromstring (text_of a_document) = inr a_document)
    by (vm_compute; reflexivity).
  assert (Hacc : Forall (λ e, is_Some (accepted e))
                   (findall "overlay" a_document ++ findall "repo" a_document)).
  { apply (bool_decide_unpack _). vm_compute. exact I. }
  assert (Hnd : NoDup (name <$> found_overlays a_document)).
  { apply (bool_decide_unpack _). vm_compute. exact I. }
  split; [exact Hp|]. split; [exact Hacc|]. split; [exact Hnd|].
  exact (X7_read_then_select an_empty_catalog (text_of a_document) "global.xml"
           a_document Hp Hacc Hnd).
Defined.

(** X11 on [an_api], which a reload leaves as it is. *)
Lemma X11_witness :
  reload an_api = (Ok (), an_api)
  ∧ (installed_ids_current an_api ∧ available_ids_current an_api
     ∧ ∀ id, (is_installed id an_api = true
              ↔ is_Some (overlays (_installed_db an_api) !! id))
             ∧ (is_repo id an_api = true
                ↔ is_Some (overlays (_available_db an_api) !! id))).
Proof.
  assert (Hr : reload an_api = (Ok (), an_api)) by (vm_compute; reflexivity).
  split; [exact Hr|].
  exact (X11_reload_brings_ids_up_to_date an_api an_api Hr).
Defined.

(** X14 on gone, which is installed and no longer listed: it is not
    removed. *)
Lemma X14_witness :
  is_repo "gone" an_api = false
  ∧ (if is_installed "gone" an_api then delete_repos (Str "gone") an_api
     else add_repos (Str "gone") an_api)
    = (Ok false, _error 1 (UNKNOWN_REPO_ID "gone") an_api).
Proof.
  assert (Hr : is_repo "gone" an_api = false) by (vm_compute; reflexivity).
  split; [exact Hr|]. exact (X14_unlisted_id_is_refused "gone" an_api Hr).
Defined.

(** X17 on a batch whose first id cannot be reached. *)
Lemma X17_witness :
  Forall (λ id, (∃ odb, overlays (_installed_db an_api) !! id = Some odb
                        ∧ sources odb ≠ [])
                ∧ is_Some (overlays (_available_db an_api) !! id))
         ["down"; "wrobel"; "moved"]
  ∧ ((sync_loop ["down"; "wrobel"; "moved"] no_entries an_api).1.1 = Ok ()
     ∧ success_ids (sync_loop ["down"; "wrobel"; "moved"] no_entries an_api).1.2
       ++ fatal_ids (sync_loop ["down"; "wrobel"; "moved"] no_entries an_api).1.2
       ≡ₚ ["down"; "wrobel"; "moved"]).
Proof.
  assert (Hall : Forall (λ id, (∃ odb, overlays (_installed_db an_api) !! id = Some odb
                                       ∧ sources odb ≠ [])
                               ∧ is_Some (overlays (_available_db an_api) !! id))
                        ["down"; "wrobel"; "moved"]).
  { repeat (apply Forall_cons; split;
            [split; [eexists; split; [vm_compute; reflexivity|discriminate]
                    |vm_compute; eexists; reflexivity]|]).
    constructor. }
  split; [exact Hall|].
  exact (X17_sync_gives_every_id_its_entry ["down"; "wrobel"; "moved"] an_api Hall).
Defined.

(** X19 on moved, which is installed from one place and offered from two
    others. *)
Lemma X19_witness :
  overlays (_installed_db an_api) !! "moved"
  = Some (an_overlay "moved" [rsync "rsync://a.example/moved"])
  ∧ overlays (_available_db an_api) !! "moved"
    = Some (an_overlay "moved" [rsync "rsync://b.example/moved";
                                rsync "rsync://c.example/moved"])
  ∧ sources (an_overlay "moved" [rsync "rsync://a.example/moved"])
    = rsync "rsync://a.example/moved" :: []
  ∧ if bool_decide
         (src (rsync "rsync://a.example/moved")
          ∈ src <$> sources (an_overlay "moved" [rsync "rsync://b.example/moved";
                                                 rsync "rsync://c.example/moved"]))
    then warnings (sync_step "moved" no_entries an_api).1.2 = warnings no_entries
    else ∃ c, warnings (sync_step "moved" no_entries an_api).1.2
              = warnings no_entries
                ++ [warning3 "moved" source_changed_format
                      {| repo_name := "moved";
                         current_src := src (rsync "rsync://a.example/moved");
                         candidates := c;
                         plural :=
                           if bool_decide
                                (length (remove_dups
                                           (src <$> sources
                                              (an_overlay "moved"
                                                 [rsync "rsync://b.example/moved";
                                                  rsync "rsync://c.example/moved"])))
                                 = 1%nat)
                           then EmptyString else "s"%string |}].
Proof.
  assert (Hi : overlays (_installed_db an_api) !! "moved"
               = Some (an_overlay "moved" [rsync "rsync://a.example/moved"]))
    by (vm_compute; reflexivity).
  assert (Ha : overlays (_available_db an_api) !! "moved"
               = Some (an_overlay "moved" [rsync "rsync://b.example/moved";
                                           rsync "rsync://c.example/moved"]))
    by (vm_compute; reflexivity).
  split; [exact Hi|]. split; [exact Ha|]. split; [reflexivity|].
  exact (X19_sync_warns_when_source_not_offered "moved" no_entries an_api _ _
           (rsync "rsync://a.example/moved") [] Hi Ha eq_refl).
Defined.

(** X20 on the two ids of wrobel. *)
Lemma X20_witness :
  Forall (λ id, is_repo id an_api = true
                ∧ is_Some (overlays (_available_db an_api) !! id))
         ["wrobel"; "wrobel-stable"]
  ∧ ∃ m, get_info_str (List ["wrobel"; "wrobel-stable"]) an_api = (Ok m, an_api)
         ∧ ∀ k, m !! k = if bool_decide (k ∈ ["wrobel"; "wrobel-stable"])
                         then info_tuple_of <$> overlays (_available_db an_api) !! k
                         else None.
Proof.
  assert (Hall : Forall (λ id, is_repo id an_api = true
                               ∧ is_Some (overlays (_available_db an_api) !! id))
                        ["wrobel"; "wrobel-stable"]).
  { repeat (apply Forall_cons; split;
            [split; [vm_compute; reflexivity|vm_compute; eexists; reflexivity]|]).
    constructor. }
  split; [exact Hall|].
  exact (X20_get_info_str_of_listed_ids ["wrobel"; "wrobel-stable"] an_api Hall).
Defined.

(** X21 on the two ids of wrobel. *)
Lemma X21_witness :
  Forall (λ id, is_repo id an_api = true
                ∧ ∃ o, overlays (_available_db an_api) !! id = Some o
                       ∧ sources o ≠ [])
         ["wrobel"; "wrobel-stable"]
  ∧ ∃ m, get_all_info (List ["wrobel"; "wrobel-stable"]) an_api = (Ok m, an_api)
         ∧ ∀ k, m !! k = if bool_decide (k ∈ ["wrobel"; "wrobel-stable"])
                         then overlays (_available_db an_api) !! k ≫= info_dict_entry
                         else None.
Proof.
  assert (Hall : Forall (λ id, is_repo id an_api = true
                               ∧ ∃ o, overlays (_available_db an_api) !! id = Some o
                                      ∧ sources o ≠ [])
                        ["wrobel"; "wrobel-stable"]).
  { repeat (apply Forall_cons; split;
            [split; [vm_compute; reflexivity
                    |eexists; split; [vm_compute; reflexivity|discriminate]]|]).
    constructor. }
  split; [exact Hall|].
  exact (X21_get_all_info_of_listed_ids ["wrobel"; "wrobel-stable"] an_api Hall).
Defined.

(** X22 on ghost, which no list and no catalog has. *)
Lemma X22_witness :
  overlays (_available_db an_api) !! "ghost" = None
  ∧ (get_info_str (Str "ghost") an_api
     = (Raise (NameError "message"),
        if is_repo "ghost" an_api then an_api
        else _error 1 (UNKNOWN_REPO_ID "ghost") an_api)
     ∧ get_all_info (Str "ghost") an_api
       = (Raise (NameError "message"),
          if is_repo "ghost" an_api then an_api
          else _error 1 (UNKNOWN_REPO_ID "ghost") an_api)).
Proof.
  assert (Hg : overlays (_available_db an_api) !! "ghost" = None)
    by (vm_compute; reflexivity).
  split; [exact Hg|].
  exact (X22_info_of_absent_id_raises_NameError "ghost" an_api Hg).
Defined.

(** X25 on wrobel-stable, which is on offer and not installed. *)
Lemma X25_witness :
  is_installed "wrobel-stable" an_api = false
  ∧ is_repo "wrobel-stable" an_api = true
  ∧ overlays (_available_db an_api) !! "wrobel-stable" = Some wrobel_stable
  ∧ let '(r, d, w) := DB_add (_installed_db an_api) wrobel_stable true
                             (the_world an_api) in
    match DB w with
    | (Ok d', w') =>
        add_repos (Str "wrobel-stable") an_api
        = match r with
          | Ok _ =>
              (Ok true, set_installed d' (sorted (keys (overlays d'))) w' an_api)
          | Raise e =>
              (Ok false,
               set_installed d' (sorted (keys (overlays d'))) w'
                 (_error ERROR_INTERNAL_ERROR
                    ("Failed to enable repository " ++ squote ++ "wrobel-stable"
                     ++ squote ++ " : " ++ str e)%string an_api))
          end
    | (Raise e', w') => (add_repos (Str "wrobel-stable") an_api).1 = Raise e'
    end.
Proof.
  assert (Hi : is_installed "wrobel-stable" an_api = false) by (vm_compute; reflexivity).
  assert (Hr : is_repo "wrobel-stable" an_api = true) by (vm_compute; reflexivity).
  assert (Ho : overlays (_available_db an_api) !! "wrobel-stable" = Some wrobel_stable)
    by (vm_compute; reflexivity).
  split; [exact Hi|]. split; [exact Hr|]. split; [exact Ho|].
  exact (X25_add_repos_on_a_new_id "wrobel-stable" an_api wrobel_stable Hi Hr Ho).
Defined.

(** X26 on wrobel, which is installed. *)
Lemma X26_witness :
  is_installed "wrobel" an_api = true
  ∧ is_repo "wrobel" an_api = true
  ∧ overlays (_installed_db an_api) !! "wrobel" = Some wrobel
  ∧ let '(r, d, w) := DB_delete (_installed_db an_api) wrobel (the_world an_api) in
    match DB w with
    | (Ok d', w') =>
        delete_repos (Str "wrobel") an_api
        = match r with
          | Ok _ =>
              (Ok true, set_installed d' (sorted (keys (overlays d'))) w' an_api)
          | Raise e =>
              (Ok false,
               set_installed d' (sorted (keys (overlays d'))) w'
                 (_error ERROR_INTERNAL_ERROR
                    ("Failed to disable repository " ++ squote ++ "wrobel" ++ squote
                     ++ ":" ++ nl ++ str e)%string an_api))
          end
    | (Raise e', w') => (delete_repos (Str "wrobel") an_api).1 = Raise e'
    end.
Proof.
  assert (Hi : is_installed "wrobel" an_api = true) by (vm_compute; reflexivity).
  assert (Hr : is_repo "wrobel" an_api = true) by (vm_compute; reflexivity).
  assert (Ho : overlays (_installed_db an_api) !! "wrobel" = Some wrobel)
    by (vm_compute; reflexivity).
  split; [exact Hi|]. split; [exact Hr|]. split; [exact Ho|].
  exact (X26_delete_repos_on_an_installed_id "wrobel" an_api wrobel Hi Hr Ho).
Defined.

(** [list] on one name and on two, in the order of their summaries, and with
    [verbose]. *)
Example list_of_names :
  DbBase_list (Some ["wrobel"]) false 13 a_catalog
  = inr [("wrobel       ", false, false)]
  ∧ DbBase_list (Some ["wrobel-stable"; "wrobel"]) false 13 a_catalog
    = inr [("wrobel       ", false, false); ("wrobel-stable", true, false)]
  ∧ DbBase_list (Some []) false 13 a_catalog
    = DbBase_list None false 13 a_catalog
  ∧ DbBase_list (Some ["wrobel"]) true 0 a_catalog
    = inl (TypeError "append() takes exactly one argument (3 given)")
  ∧ DbBase_list (Some ["ghost"]) true 0 a_catalog = inr [].
Proof. repeat split; vm_compute; reflexivity. Qed.

End more_on_fixture.
